(** * Producer/consumer over a circular buffer (6_Threads/7_ProdCons.c)

    The C program shares one [struct prodcons] between a producer thread and
    a consumer thread.  Every access to the structure happens between
    [pthread_mutex_lock] and [pthread_mutex_unlock] (or inside
    [pthread_cond_wait], which gives the mutex back while the caller sleeps),
    so the bodies of [Store] and [Get] are the atomic actions of the system.
    The development below embeds

    - the buffer operations [init], [Store] and [Get] as functions on the
      structure, where [None] stands for a call that is suspended in
      [pthread_cond_wait] with the structure untouched;
    - the three threads ([main], [Producer], [Consumer]) as step functions on
      a shared [world], interleaved by an arbitrary schedule that may also
      deliver spurious wake-ups;
    - the observable history of a run as a list of [event]s.

    Integers are the [int]s of C, embedded in [Z].  The program only adds 1
    to a position below [BUFFER_SIZE] and to a loop counter below [COUNT],
    so for constants that are [int]s no operation leaves the range and no
    wrap-around is written out.  Time is not modelled: [sleep] delays a
    thread and changes nothing, and "finite time" is a finite number of
    steps.                                                                  *)

From Stdlib Require Import ZArith Lia.
From stdpp Require Import base list.

Local Open Scope Z_scope.

(** ** Data model *)

(** [struct prodcons]: the slot array and the two positions.  The mutex and
    the two condition variables carry no data; their effect is the
    atomicity of the critical sections and the [PWait]/[CWait] states of the
    threads below. *)
Record prodcons := Build_prodcons {
  buffer : list Z;   (* int buffer[BUFFER_SIZE] *)
  read : Z;          (* int read  *)
  write : Z          (* int write *)
}.

(** Results of the three initialisation calls made by [init]
    ([0] is success, anything else an error number). *)
Record pthread_env := Build_pthread_env {
  mutex_init_rc : Z;
  cond_init_notEmpty_rc : Z;
  cond_init_notFull_rc : Z
}.

Definition init_ok (env : pthread_env) : bool :=
  (mutex_init_rc env =? 0) && (cond_init_notEmpty_rc env =? 0)
  && (cond_init_notFull_rc env =? 0).

(** Where the producer calls [Store]: inside the loop with counter [n]
    (line 114) or after it with [LIMIT] (line 117). *)
Inductive store_site :=
| InLoop (n : Z)
| AfterLoop.

Inductive producer_pc :=
| PIdle                       (* th_b not created yet *)
| PFor (n : Z)                (* at the test [n < COUNT] *)
| PStore (s : store_site)     (* in [Store], at the test of the wait loop *)
| PWait (s : store_site)      (* asleep in [pthread_cond_wait(&notFull)] *)
| PDone.                      (* returned *)

Inductive consumer_pc :=
| CIdle                       (* th_a not created yet *)
| CGet                        (* in [Get], at the test of the wait loop *)
| CWait                       (* asleep in [pthread_cond_wait(&notEmpty)] *)
| CGot (d : Z)                (* [Get] returned [d], at [if (d == LIMIT)] *)
| CDone.                      (* returned *)

Inductive main_pc :=
| MInit | MCreateA | MCreateB | MJoinA | MJoinB | MDestroy
| MExit (status : Z).

Record world := Build_world {
  buf : prodcons;        (* the global [buffer] *)
  sync_ok : bool;        (* mutex and condition variables are initialised *)
  main_at : main_pc;
  prod_at : producer_pc;
  cons_at : consumer_pc
}.

Definition set_buf (b : prodcons) (w : world) : world :=
  Build_world b (sync_ok w) (main_at w) (prod_at w) (cons_at w).
Definition set_main (m : main_pc) (w : world) : world :=
  Build_world (buf w) (sync_ok w) m (prod_at w) (cons_at w).
Definition set_prod (p : producer_pc) (w : world) : world :=
  Build_world (buf w) (sync_ok w) (main_at w) p (cons_at w).
Definition set_cons (c : consumer_pc) (w : world) : world :=
  Build_world (buf w) (sync_ok w) (main_at w) (prod_at w) c.

(** What one atomic action shows to an observer. *)
Inductive event :=
| EvMain                (* a step of [main] *)
| EvEmit (n : Z)        (* producer printed ["n --->"] *)
| EvStore (d : Z)       (* [Store(&buffer, d)] completed *)
| EvFull                (* [Store] found the buffer full and went to sleep *)
| EvGet (d : Z)         (* [Get(&buffer)] returned [d] *)
| EvEmpty               (* [Get] found the buffer empty and went to sleep *)
| EvShow (d : Z)        (* consumer printed ["---> d"] *)
| EvLocal               (* loop exit of the producer, [break] of the consumer *)
| EvWake.               (* a spurious wake-up *)

(** Who moves next.  The last two are the environment waking a sleeper
    without a signal, as POSIX allows. *)
Inductive actor :=
| TMain | TProducer | TConsumer | SpuriousNotFull | SpuriousNotEmpty.

(** Projections of a history. *)
Definition stored (e : event) : option Z :=
  match e with EvStore d => Some d | _ => None end.
Definition got (e : event) : option Z :=
  match e with EvGet d => Some d | _ => None end.
Definition printed (e : event) : option Z :=
  match e with EvShow d => Some d | _ => None end.
Definition spurious (e : event) : option unit :=
  match e with EvWake => Some tt | _ => None end.

Definition pushed (t : list event) : list Z := omap stored t.
Definition popped (t : list event) : list Z := omap got t.
Definition shown (t : list event) : list Z := omap printed t.
Definition wakes (t : list event) : nat := length (omap spurious t).

(** The lines ["n --->"] of the producer. *)
Definition emit (e : event) : option Z :=
  match e with EvEmit n => Some n | _ => None end.
Definition emitted (t : list event) : list Z := omap emit t.

(** ** The constants of the source, and sample data *)

Module Configured.
Definition BUFFER_SIZE : Z := 4.     (* #define BUFFER_SIZE 4 *)
Definition LIMIT : Z := -1.          (* const int LIMIT = -1; *)
Definition COUNT : Z := 11.          (* const int COUNT = 11; *)
End Configured.

Module Sample.
(** All three initialisations succeed. *)
Definition env_ok : pthread_env := Build_pthread_env 0 0 0.
(** [pthread_mutex_init] fails with [ENOMEM]. *)
Definition env_mutex_fails : pthread_env := Build_pthread_env 12 0 0.

(** A run in which the producer fills the buffer and sleeps, the consumer
    empties it and sleeps, is woken for nothing, sleeps again, and both
    then exchange one more item. *)
Definition sched : list actor :=
  [TMain; TMain; TMain;
   TProducer; TProducer; TProducer; TProducer; TProducer; TProducer;
   TProducer; TProducer;
   TConsumer; TConsumer; TConsumer; TConsumer; TConsumer; TConsumer;
   TConsumer; SpuriousNotEmpty; TConsumer; TProducer; TConsumer].
Definition trace : list event :=
  [EvMain; EvMain; EvMain; EvEmit 0; EvStore 0; EvEmit 1; EvStore 1;
   EvEmit 2; EvStore 2; EvEmit 3; EvFull; EvGet 0; EvShow 0; EvGet 1;
   EvShow 1; EvGet 2; EvShow 2; EvEmpty; EvWake; EvEmpty; EvStore 3;
   EvGet 3].
Definition state : world :=
  Build_world (Build_prodcons [0; 1; 2; 3] 0 0) true MJoinA (PFor 4)
              (CGot 3).

(** The run to completion in which [main], then the producer, then the
    consumer moves whenever it can. *)
Definition full_sched : list actor :=
  [TMain; TMain; TMain; TProducer; TProducer; TProducer; TProducer;
   TProducer; TProducer; TProducer; TProducer; TConsumer; TProducer;
   TProducer; TProducer; TConsumer; TConsumer; TProducer; TProducer;
   TProducer; TConsumer; TConsumer; TProducer; TProducer; TProducer;
   TConsumer; TConsumer; TProducer; TProducer; TProducer; TConsumer;
   TConsumer; TProducer; TProducer; TProducer; TConsumer; TConsumer;
   TProducer; TProducer; TProducer; TConsumer; TConsumer; TProducer;
   TProducer; TProducer; TConsumer; TConsumer; TProducer; TProducer;
   TProducer; TConsumer; TConsumer; TProducer; TConsumer; TConsumer;
   TConsumer; TConsumer; TConsumer; TConsumer; TConsumer; TMain; TMain;
   TMain].

Definition final_trace : list event :=
  [EvMain; EvMain; EvMain; EvEmit 0; EvStore 0; EvEmit 1; EvStore 1;
   EvEmit 2; EvStore 2; EvEmit 3; EvFull; EvGet 0; EvStore 3; EvEmit 4;
   EvFull; EvShow 0; EvGet 1; EvStore 4; EvEmit 5; EvFull; EvShow 1;
   EvGet 2; EvStore 5; EvEmit 6; EvFull; EvShow 2; EvGet 3; EvStore 6;
   EvEmit 7; EvFull; EvShow 3; EvGet 4; EvStore 7; EvEmit 8; EvFull;
   EvShow 4; EvGet 5; EvStore 8; EvEmit 9; EvFull; EvShow 5; EvGet 6;
   EvStore 9; EvEmit 10; EvFull; EvShow 6; EvGet 7; EvStore 10; EvLocal;
   EvFull; EvShow 7; EvGet 8; EvStore (-1); EvShow 8; EvGet 9; EvShow 9;
   EvGet 10; EvShow 10; EvGet (-1); EvLocal; EvMain; EvMain; EvMain].
Definition final_state : world :=
  Build_world (Build_prodcons [8; 9; 10; -1] 0 0) true (MExit 0) PDone
              CDone.

(** A sentinel that is also the data item 3. *)
Definition colliding_LIMIT : Z := 3.
Definition stalled : world :=
  Build_world (Build_prodcons [4; 5; 6; 3] 0 3) true MJoinB
              (PWait (InLoop 7)) CDone.

(** The run with the colliding sentinel that ends in [stalled]. *)
Definition stall_sched : list actor :=
  [TMain; TMain; TMain; TProducer; TProducer; TProducer; TProducer;
   TProducer; TProducer; TProducer; TProducer; TConsumer; TProducer;
   TProducer; TProducer; TConsumer; TConsumer; TProducer; TProducer;
   TProducer; TConsumer; TConsumer; TProducer; TProducer; TProducer;
   TConsumer; TConsumer; TProducer; TProducer; TProducer; TConsumer;
   TMain].
Definition stall_trace : list event :=
  [EvMain; EvMain; EvMain; EvEmit 0; EvStore 0; EvEmit 1; EvStore 1;
   EvEmit 2; EvStore 2; EvEmit 3; EvFull; EvGet 0; EvStore 3; EvEmit 4;
   EvFull; EvShow 0; EvGet 1; EvStore 4; EvEmit 5; EvFull; EvShow 1;
   EvGet 2; EvStore 5; EvEmit 6; EvFull; EvShow 2; EvGet 3; EvStore 6;
   EvEmit 7; EvFull; EvLocal; EvMain].

(** The consumer asleep on an empty buffer (the first 18 steps of
    [sched]). *)
Definition asleep_sched : list actor :=
  [TMain; TMain; TMain;
   TProducer; TProducer; TProducer; TProducer; TProducer; TProducer;
   TProducer; TProducer;
   TConsumer; TConsumer; TConsumer; TConsumer; TConsumer; TConsumer;
   TConsumer].
Definition asleep_trace : list event :=
  [EvMain; EvMain; EvMain; EvEmit 0; EvStore 0; EvEmit 1; EvStore 1;
   EvEmit 2; EvStore 2; EvEmit 3; EvFull; EvGet 0; EvShow 0; EvGet 1;
   EvShow 1; EvGet 2; EvShow 2; EvEmpty].
Definition asleep : world :=
  Build_world (Build_prodcons [0; 1; 2; 0] 3 3) true MJoinA
              (PStore (InLoop 3)) CWait.

(** The producer asleep on a full buffer, the consumer about to call
    [Get] (the first 11 steps of [sched]). *)
Definition blocked_sched : list actor :=
  [TMain; TMain; TMain;
   TProducer; TProducer; TProducer; TProducer; TProducer; TProducer;
   TProducer; TProducer].
Definition blocked_trace : list event :=
  [EvMain; EvMain; EvMain; EvEmit 0; EvStore 0; EvEmit 1; EvStore 1;
   EvEmit 2; EvStore 2; EvEmit 3; EvFull].
Definition blocked : world :=
  Build_world (Build_prodcons [0; 1; 2; 0] 0 3) true MJoinA
              (PWait (InLoop 3)) CGet.

(** With a single slot: both workers asleep after six steps. *)
Definition one_slot_sched : list actor :=
  [TMain; TMain; TMain; TProducer; TProducer; TConsumer].
Definition one_slot_trace : list event :=
  [EvMain; EvMain; EvMain; EvEmit 0; EvFull; EvEmpty].
Definition one_slot : world :=
  Build_world (Build_prodcons [0] 0 0) true MJoinA (PWait (InLoop 0)) CWait.

(** With thirteen slots: the producer entering its second [Store]. *)
Definition roomy_sched : list actor :=
  [TMain; TMain; TMain; TProducer; TProducer; TProducer].
Definition roomy_trace : list event :=
  [EvMain; EvMain; EvMain; EvEmit 0; EvStore 0; EvEmit 1].
Definition roomy : world :=
  Build_world (Build_prodcons [0; 0; 0; 0; 0; 0; 0; 0; 0; 0; 0; 0; 0] 0 1)
              true MJoinA (PStore (InLoop 1)) CGet.

(** With [COUNT = 0]: the whole run. *)
Definition idle_sched : list actor :=
  [TMain; TMain; TMain; TProducer; TProducer; TConsumer; TConsumer;
   TMain; TMain; TMain].
Definition idle_trace : list event :=
  [EvMain; EvMain; EvMain; EvLocal; EvStore (-1); EvGet (-1); EvLocal;
   EvMain; EvMain; EvMain].
Definition idle_state : world :=
  Build_world (Build_prodcons [-1; 0; 0; 0] 1 1) true (MExit 0) PDone CDone.

(** A full buffer (three items), one with two items, an empty one. *)
Definition full_buffer : prodcons := Build_prodcons [5; 6; 7; 0] 0 3.
Definition half_buffer : prodcons := Build_prodcons [5; 6; 7; 0] 1 3.
Definition empty_buffer : prodcons := Build_prodcons [5; 6; 7; 0] 3 3.
Definition getting : world :=
  Build_world half_buffer true MJoinA (PWait (InLoop 8)) CGet.
End Sample.

(** ** Proof steps used throughout *)

(** [x mod m = r] from the quotient. *)
Ltac mod_is k := symmetry; apply (Z.mod_unique_pos _ _ k); lia.

(** Conjunctions of the goal, and of the hypotheses, taken apart (an
    equivalence or a folded definition is left whole). *)
Ltac split_goal := repeat match goal with |- _ ∧ _ => split end.

Ltac split_ands :=
  repeat match goal with
         | H : _ ∧ _ |- _ => destruct H
         end.

(** ** The program, for arbitrary values of its three constants *)

Section ProdCons.

Variables BUFFER_SIZE LIMIT COUNT : Z.

(** The static object [buffer] before [main] runs: zero-initialised. *)
Definition zeroed : prodcons :=
  Build_prodcons (replicate (Z.to_nat BUFFER_SIZE) 0) 0 0.

(** [init]: the three initialisation results are dropped, the positions
    are reset. *)
Definition init (env : pthread_env) (b : prodcons) : prodcons :=
  let _ := mutex_init_rc env in
  let _ := cond_init_notEmpty_rc env in
  let _ := cond_init_notFull_rc env in
  Build_prodcons (buffer b) 0 0.

(** Loop tests of [Store] and [Get]; [%] of C is [Z.rem]. *)
Definition full (b : prodcons) : bool :=
  Z.rem (write b + 1) BUFFER_SIZE =? read b.
Definition empty (b : prodcons) : bool :=
  write b =? read b.

(** [i++; if (i >= BUFFER_SIZE) i = 0;] *)
Definition advance (i : Z) : Z :=
  if i + 1 >=? BUFFER_SIZE then 0 else i + 1.

(** [Store]: [None] is the call asleep on [notFull]; otherwise the slot at
    [write] receives [data] and [write] moves on.  An index outside the
    array is undefined in C; [<[_:=_]>] leaves the list alone there, and
    [buffer_wf] below shows that it does not occur. *)
Definition Store (b : prodcons) (data : Z) : option prodcons :=
  if full b then None
  else Some (Build_prodcons (<[Z.to_nat (write b) := data]> (buffer b))
                            (read b) (advance (write b))).

(** [Get]: [None] is the call asleep on [notEmpty]; otherwise the slot at
    [read] is returned and [read] moves on. *)
Definition Get (b : prodcons) : option (Z * prodcons) :=
  if empty b then None
  else Some (default 0 (buffer b !! Z.to_nat (read b)),
             Build_prodcons (buffer b) (advance (read b)) (write b)).

(** [pthread_cond_signal]: the sleeper on that condition, if any, becomes
    runnable again and will re-test its loop condition. *)
Definition signal_notEmpty (c : consumer_pc) : consumer_pc :=
  match c with CWait => CGet | _ => c end.
Definition signal_notFull (p : producer_pc) : producer_pc :=
  match p with PWait s => PStore s | _ => p end.

Definition arg (s : store_site) : Z :=
  match s with InLoop n => n | AfterLoop => LIMIT end.
Definition after (s : store_site) : producer_pc :=
  match s with InLoop n => PFor (n + 1) | AfterLoop => PDone end.

(** One atomic action of [Producer].  [sleep] only delays the thread and
    is left out.  Locking a mutex that was never initialised is undefined:
    the model has no step there. *)
Definition Producer (w : world) : option (event * world) :=
  match prod_at w with
  | PIdle | PDone | PWait _ => None
  | PFor n =>
      if n <? COUNT then Some (EvEmit n, set_prod (PStore (InLoop n)) w)
      else Some (EvLocal, set_prod (PStore AfterLoop) w)
  | PStore s =>
      if sync_ok w then
        match Store (buf w) (arg s) with
        | None => Some (EvFull, set_prod (PWait s) w)
        | Some b' =>
            Some (EvStore (arg s),
                  set_prod (after s)
                    (set_cons (signal_notEmpty (cons_at w)) (set_buf b' w)))
        end
      else None
  end.

(** One atomic action of [Consumer]. *)
Definition Consumer (w : world) : option (event * world) :=
  match cons_at w with
  | CIdle | CDone | CWait => None
  | CGet =>
      if sync_ok w then
        match Get (buf w) with
        | None => Some (EvEmpty, set_cons CWait w)
        | Some (d, b') =>
            Some (EvGet d,
                  set_cons (CGot d)
                    (set_prod (signal_notFull (prod_at w)) (set_buf b' w)))
        end
      else None
  | CGot d =>
      if d =? LIMIT then Some (EvLocal, set_cons CDone w)
      else Some (EvShow d, set_cons CGet w)
  end.

(** One action of [main]: [init], the two [pthread_create], the two
    [pthread_join] (each enabled once its thread has returned), the
    destruction of the primitives with [return (0)].  [srand] has no effect
    on the modelled state. *)
Definition main (env : pthread_env) (w : world) : option (event * world) :=
  match main_at w with
  | MInit =>
      Some (EvMain,
            Build_world (init env (buf w)) (init_ok env) MCreateA
                        (prod_at w) (cons_at w))
  | MCreateA => Some (EvMain, set_main MCreateB (set_cons CGet w))
  | MCreateB => Some (EvMain, set_main MJoinA (set_prod (PFor 0) w))
  | MJoinA =>
      match cons_at w with
      | CDone => Some (EvMain, set_main MJoinB w)
      | _ => None
      end
  | MJoinB =>
      match prod_at w with
      | PDone => Some (EvMain, set_main MDestroy w)
      | _ => None
      end
  | MDestroy => Some (EvMain, set_main (MExit 0) w)
  | MExit _ => None
  end.

Definition spurious_notFull (w : world) : option (event * world) :=
  match prod_at w with
  | PWait s => Some (EvWake, set_prod (PStore s) w)
  | _ => None
  end.

Definition spurious_notEmpty (w : world) : option (event * world) :=
  match cons_at w with
  | CWait => Some (EvWake, set_cons CGet w)
  | _ => None
  end.

Definition step (env : pthread_env) (a : actor) (w : world)
  : option (event * world) :=
  match a with
  | TMain => main env w
  | TProducer => Producer w
  | TConsumer => Consumer w
  | SpuriousNotFull => spurious_notFull w
  | SpuriousNotEmpty => spurious_notEmpty w
  end.

Definition boot : world := Build_world zeroed false MInit PIdle CIdle.

(** Running a schedule: the history grows at its end; [None] when the
    schedule names an actor that cannot move. *)
Fixpoint run (env : pthread_env) (sched : list actor)
    (c : list event * world) : option (list event * world) :=
  match sched with
  | [] => Some c
  | a :: sched' =>
      match step env a (snd c) with
      | Some (e, w') => run env sched' (fst c ++ [e], w')
      | None => None
      end
  end.

(** The states and histories a process can show. *)
Inductive reaches (env : pthread_env) : list event → world → Prop :=
| reaches_boot : reaches env [] boot
| reaches_step t w a e w' :
    reaches env t w → step env a w = Some (e, w') →
    reaches env (t ++ [e]) w'.

(** A scheduler that always picks the first thread able to move: [main],
    then the producer, then the consumer. *)
Definition pick (env : pthread_env) (w : world) : option actor :=
  match step env TMain w, step env TProducer w, step env TConsumer w with
  | Some _, _, _ => Some TMain
  | None, Some _, _ => Some TProducer
  | None, None, Some _ => Some TConsumer
  | None, None, None => None
  end.

Fixpoint eager (env : pthread_env) (fuel : nat) (w : world) : list actor :=
  match fuel with
  | O => []
  | S fuel' =>
      match pick env w with
      | Some a =>
          match step env a w with
          | Some (_, w') => a :: eager env fuel' w'
          | None => []
          end
      | None => []
      end
  end.

(** ** Invariants *)

(** Positions inside the array, array of the declared size. *)
Definition buffer_wf (b : prodcons) : Prop :=
  length (buffer b) = Z.to_nat BUFFER_SIZE
  ∧ 0 ≤ read b < BUFFER_SIZE ∧ 0 ≤ write b < BUFFER_SIZE.

(** Number of items held, from the two positions alone. *)
Definition occupancy (b : prodcons) : Z :=
  (write b - read b) mod BUFFER_SIZE.

(** *** The buffer against its history

    [holds b ps gs]: after the stores [ps] and the gets [gs], the structure
    [b] has its positions at the two counts modulo the size, the gets are
    the first stores, and the stores not yet taken sit in their slots. *)
Definition holds (b : prodcons) (ps gs : list Z) : Prop :=
  let p := Z.of_nat (length ps) in
  let g := Z.of_nat (length gs) in
  length (buffer b) = Z.to_nat BUFFER_SIZE
  ∧ read b = g mod BUFFER_SIZE
  ∧ write b = p mod BUFFER_SIZE
  ∧ g ≤ p ≤ g + BUFFER_SIZE - 1
  ∧ gs = take (length gs) ps
  ∧ ∀ k : nat, g ≤ Z.of_nat k < p →
      buffer b !! Z.to_nat (Z.of_nat k mod BUFFER_SIZE) = ps !! k.

(** *** The invariant of the pipeline *)

(** Number of data items the producer sends: [COUNT], or none when
    [COUNT] is negative. *)
Definition quota : Z := Z.max 0 COUNT.

Definition site_inv (ps : list Z) (s : store_site) : Prop :=
  match s with
  | InLoop n => 0 ≤ n < COUNT ∧ ps = seqZ 0 n
  | AfterLoop => ps = seqZ 0 quota
  end.

(** The producer against the values stored so far. *)
Definition prod_inv (b : prodcons) (ps : list Z) (p : producer_pc)
  : Prop :=
  match p with
  | PIdle => ps = []
  | PFor n => 0 ≤ n ≤ quota ∧ ps = seqZ 0 n
  | PStore s => site_inv ps s
  | PWait s => site_inv ps s ∧ full b = true
  | PDone => ps = seqZ 0 quota ++ [LIMIT]
  end.

(** The consumer against the values it got ([gs]) and printed ([ss]). *)
Definition cons_inv (b : prodcons) (gs ss : list Z) (c : consumer_pc)
  : Prop :=
  match c with
  | CIdle => gs = [] ∧ ss = []
  | CGet => ss = gs ∧ LIMIT ∉ gs
  | CWait => (ss = gs ∧ LIMIT ∉ gs) ∧ empty b = true
  | CGot d => gs = ss ++ [d] ∧ LIMIT ∉ ss
  | CDone => gs = ss ++ [LIMIT] ∧ LIMIT ∉ ss
  end.

Definition main_inv (env : pthread_env) (w : world) : Prop :=
  match main_at w with
  | MInit => prod_at w = PIdle ∧ cons_at w = CIdle
  | MCreateA =>
      sync_ok w = init_ok env ∧ prod_at w = PIdle ∧ cons_at w = CIdle
  | MCreateB =>
      sync_ok w = init_ok env ∧ prod_at w = PIdle ∧ cons_at w ≠ CIdle
  | MJoinA =>
      sync_ok w = init_ok env ∧ prod_at w ≠ PIdle ∧ cons_at w ≠ CIdle
  | MJoinB =>
      sync_ok w = init_ok env ∧ prod_at w ≠ PIdle ∧ cons_at w = CDone
  | MDestroy =>
      sync_ok w = init_ok env ∧ prod_at w = PDone ∧ cons_at w = CDone
  | MExit status =>
      sync_ok w = init_ok env ∧ prod_at w = PDone ∧ cons_at w = CDone
      ∧ status = 0
  end.

(** Steps still owed by each thread; a sleeper owes one less than the
    same thread awake, so that a wake-up costs one. *)
Definition main_rank (m : main_pc) : Z :=
  match m with
  | MInit => 6 | MCreateA => 5 | MCreateB => 4 | MJoinA => 3
  | MJoinB => 2 | MDestroy => 1 | MExit _ => 0
  end.

Definition site_rank (s : store_site) : Z :=
  match s with InLoop n => 6 * (quota - n) + 3 | AfterLoop => 3 end.

Definition prod_rank (p : producer_pc) : Z :=
  match p with
  | PIdle => 6 * quota + 6
  | PFor n => 6 * (quota - n) + 6
  | PStore s => site_rank s
  | PWait s => site_rank s - 1
  | PDone => 0
  end.

Definition cons_rank (c : consumer_pc) : Z :=
  match c with
  | CIdle => 3 | CGet => 3 | CWait => 2 | CGot _ => 6 | CDone => 0
  end.

Definition potential (t : list event) (w : world) : Z :=
  main_rank (main_at w) + prod_rank (prod_at w)
  + 6 * (quota + 1 - Z.of_nat (length (popped t)))
  + cons_rank (cons_at w).

Definition budget : Z := 12 * quota + 21.

Record Inv (env : pthread_env) (t : list event) (w : world) : Prop := {
  inv_holds : holds (buf w) (pushed t) (popped t);
  inv_prod : prod_inv (buf w) (pushed t) (prod_at w);
  inv_cons : cons_inv (buf w) (popped t) (shown t) (cons_at w);
  inv_main : main_inv env w;
  inv_cost :
    Z.of_nat (length t) + potential t w
    ≤ budget + 2 * Z.of_nat (wakes t)
}.

(** The sentinel is none of the data items [0 .. COUNT-1]. *)
Definition no_collision : Prop := LIMIT < 0 ∨ COUNT ≤ LIMIT.

(** The three threads of the program, as opposed to the environment. *)
Definition thread (a : actor) : bool :=
  match a with
  | TMain | TProducer | TConsumer => true
  | SpuriousNotFull | SpuriousNotEmpty => false
  end.

(** Both workers have returned and [main] has returned 0. *)
Definition finished (w : world) : Prop :=
  main_at w = MExit 0 ∧ prod_at w = PDone ∧ cons_at w = CDone.

(** *** The buffer as a queue *)

(** [b->buffer[i]], as [Get] reads it. *)
Definition slot (b : prodcons) (i : Z) : Z :=
  default 0 (buffer b !! Z.to_nat i).

(** The items held, oldest first: the slots from [read] on, around the
    end of the array, as many as the occupancy. *)
Definition contents (b : prodcons) : list Z :=
  (λ k : nat, slot b ((read b + Z.of_nat k) mod BUFFER_SIZE))
    <$> seq 0 (Z.to_nat (occupancy b)).

(** One thread calling [Store] for each value of a list in turn; [None]
    when one of the calls finds the buffer full (the thread would sleep,
    with nobody to wake it). *)
Fixpoint Store_all (b : prodcons) (ds : list Z) : option prodcons :=
  match ds with
  | [] => Some b
  | d :: ds' =>
      match Store b d with
      | Some b' => Store_all b' ds'
      | None => None
      end
  end.

(** One thread calling [Get] [n] times in turn; [None] when one of the
    calls finds the buffer empty. *)
Fixpoint Get_n (b : prodcons) (n : nat) : option (list Z * prodcons) :=
  match n with
  | O => Some ([], b)
  | S n' =>
      match Get b with
      | Some (d, b') =>
          match Get_n b' n' with
          | Some (ds, b'') => Some (d :: ds, b'')
          | None => None
          end
      | None => None
      end
  end.

(** *** The producer's own output *)

(** The lines printed by the producer against its place in the loop. *)
Definition emit_inv (es : list Z) (p : producer_pc) : Prop :=
  match p with
  | PIdle => es = []
  | PFor n => es = seqZ 0 n
  | PStore (InLoop n) | PWait (InLoop n) => es = seqZ 0 (n + 1)
  | PStore AfterLoop | PWait AfterLoop | PDone => es = seqZ 0 quota
  end.

(** ** The positions and the occupancy *)

Lemma advance_mod a :
  0 < BUFFER_SIZE → advance (a mod BUFFER_SIZE) = (a + 1) mod BUFFER_SIZE.
Proof.
  intros HN. unfold advance.
  pose proof (Z.mod_pos_bound a BUFFER_SIZE HN) as Hr.
  pose proof (Z.div_mod a BUFFER_SIZE ltac:(lia)) as Ha.
  destruct (Z.geb_spec (a mod BUFFER_SIZE + 1) BUFFER_SIZE) as [Hge|Hlt].
  - apply Z.mod_unique_pos with (q := a / BUFFER_SIZE + 1); lia.
  - apply Z.mod_unique_pos with (q := a / BUFFER_SIZE); lia.
Qed.

Lemma advance_range i :
  0 ≤ i < BUFFER_SIZE → 0 ≤ advance i < BUFFER_SIZE.
Proof.
  intros Hi. unfold advance.
  destruct (Z.geb_spec (i + 1) BUFFER_SIZE); lia.
Qed.

Lemma advance_small i :
  0 ≤ i < BUFFER_SIZE → advance i = (i + 1) mod BUFFER_SIZE.
Proof.
  intros Hi. rewrite <- (Z.mod_small i BUFFER_SIZE) at 1 by lia.
  apply advance_mod. lia.
Qed.

Lemma mod_close a c :
  0 < BUFFER_SIZE → a mod BUFFER_SIZE = c mod BUFFER_SIZE →
  0 ≤ c - a < BUFFER_SIZE → a = c.
Proof.
  intros HN Heq Hd.
  pose proof (Z.div_mod a BUFFER_SIZE ltac:(lia)) as Ha.
  pose proof (Z.div_mod c BUFFER_SIZE ltac:(lia)) as Hc.
  rewrite Heq in Ha.
  assert (c - a = BUFFER_SIZE * (c / BUFFER_SIZE - a / BUFFER_SIZE)) as Hq by lia.
  assert (c / BUFFER_SIZE - a / BUFFER_SIZE = 0) by nia.
  nia.
Qed.

Lemma occupancy_range b :
  0 < BUFFER_SIZE → 0 ≤ occupancy b ≤ BUFFER_SIZE - 1.
Proof.
  intros HN. unfold occupancy.
  pose proof (Z.mod_pos_bound (write b - read b) BUFFER_SIZE HN). lia.
Qed.

Lemma occupancy_cases b :
  buffer_wf b →
  (read b ≤ write b ∧ occupancy b = write b - read b)
  ∨ (write b < read b ∧ occupancy b = write b - read b + BUFFER_SIZE).
Proof.
  intros (_ & Hr & Hw). unfold occupancy.
  destruct (Z_le_gt_dec (read b) (write b)).
  - left. split; [lia|]. mod_is 0.
  - right. split; [lia|]. mod_is (-1).
Qed.

Lemma empty_occupancy b :
  buffer_wf b → (empty b = true ↔ occupancy b = 0).
Proof.
  intros Hwf. pose proof Hwf as (_ & Hr & Hw).
  unfold empty. rewrite Z.eqb_eq.
  destruct (occupancy_cases b Hwf) as [[? ->]|[? ->]]; lia.
Qed.

Lemma full_rem b :
  buffer_wf b →
  (full b = true ↔ (write b + 1) mod BUFFER_SIZE = read b).
Proof.
  intros (_ & Hr & Hw). unfold full.
  rewrite Z.eqb_eq, Z.rem_mod_nonneg by lia. reflexivity.
Qed.

Lemma full_occupancy b :
  buffer_wf b → (full b = true ↔ occupancy b = BUFFER_SIZE - 1).
Proof.
  intros Hwf. pose proof Hwf as (_ & Hr & Hw).
  rewrite (full_rem b Hwf), <- advance_small by lia. unfold advance.
  destruct (occupancy_cases b Hwf) as [[? ->]|[? ->]];
    destruct (Z.geb_spec (write b + 1) BUFFER_SIZE); lia.
Qed.

Lemma Store_wf b data b' :
  buffer_wf b → Store b data = Some b' → buffer_wf b'.
Proof.
  intros (Hl & Hr & Hw) HS. unfold Store in HS.
  destruct (full b); [discriminate|]. injection HS as <-.
  unfold buffer_wf; simpl. rewrite length_insert.
  auto using advance_range.
Qed.

Lemma Get_wf b d b' :
  buffer_wf b → Get b = Some (d, b') → buffer_wf b'.
Proof.
  intros (Hl & Hr & Hw) HG. unfold Get in HG.
  destruct (empty b); [discriminate|]. injection HG as _ <-.
  unfold buffer_wf; simpl. auto using advance_range.
Qed.

Lemma Store_occupancy b data b' :
  buffer_wf b → Store b data = Some b' →
  occupancy b' = occupancy b + 1 ∧ occupancy b' ≤ BUFFER_SIZE - 1.
Proof.
  intros Hwf HS. pose proof (Store_wf _ _ _ Hwf HS) as Hwf'.
  pose proof Hwf as (_ & Hr & Hw).
  assert (full b = false) as Hnf.
  { unfold Store in HS. destruct (full b); [discriminate|reflexivity]. }
  assert (occupancy b ≠ BUFFER_SIZE - 1) as Hne.
  { intros Hc. apply (full_occupancy b Hwf) in Hc. congruence. }
  pose proof (occupancy_range b ltac:(lia)).
  pose proof (occupancy_range b' ltac:(lia)).
  cut (occupancy b' = occupancy b + 1); [lia|].
  unfold Store in HS. rewrite Hnf in HS. injection HS as <-.
  destruct (occupancy_cases b Hwf) as [[? Ho]|[? Ho]]; rewrite Ho in *;
    unfold occupancy, advance; simpl;
    destruct (Z.geb_spec (write b + 1) BUFFER_SIZE).
  - mod_is (-1).
  - mod_is 0.
  - lia.
  - mod_is (-1).
Qed.

Lemma Get_occupancy b d b' :
  buffer_wf b → Get b = Some (d, b') →
  occupancy b' = occupancy b - 1 ∧ 0 ≤ occupancy b'.
Proof.
  intros Hwf HG. pose proof (Get_wf _ _ _ Hwf HG) as Hwf'.
  pose proof Hwf as (_ & Hr & Hw).
  assert (empty b = false) as Hne.
  { unfold Get in HG. destruct (empty b); [discriminate|reflexivity]. }
  assert (occupancy b ≠ 0) as Hnz.
  { intros Hc. apply (empty_occupancy b Hwf) in Hc. congruence. }
  pose proof (occupancy_range b ltac:(lia)).
  pose proof (occupancy_range b' ltac:(lia)).
  cut (occupancy b' = occupancy b - 1); [lia|].
  unfold Get in HG. rewrite Hne in HG. injection HG as _ <-.
  destruct (occupancy_cases b Hwf) as [[? Ho]|[? Ho]]; rewrite Ho in *;
    unfold occupancy, advance; simpl;
    destruct (Z.geb_spec (read b + 1) BUFFER_SIZE).
  - mod_is 0.
  - mod_is 0.
  - mod_is 0.
  - mod_is (-1).
Qed.

(** ** The buffer against its history *)

Lemma holds_wf b ps gs :
  0 < BUFFER_SIZE → holds b ps gs → buffer_wf b.
Proof.
  intros HN (Hl & Hr & Hw & _). unfold buffer_wf.
  rewrite Hr, Hw. auto using Z.mod_pos_bound.
Qed.

Lemma holds_occupancy b ps gs :
  0 < BUFFER_SIZE → holds b ps gs →
  occupancy b = Z.of_nat (length ps) - Z.of_nat (length gs).
Proof.
  intros HN (_ & Hr & Hw & Hb & _). unfold occupancy. rewrite Hr, Hw.
  rewrite <- Zminus_mod. apply Z.mod_small. lia.
Qed.

Lemma holds_empty b ps gs :
  0 < BUFFER_SIZE → holds b ps gs →
  (empty b = true ↔ length ps = length gs).
Proof.
  intros HN H. rewrite (empty_occupancy b (holds_wf _ _ _ HN H)).
  rewrite (holds_occupancy _ _ _ HN H). lia.
Qed.

Lemma holds_full b ps gs :
  0 < BUFFER_SIZE → holds b ps gs →
  (full b = true ↔
   Z.of_nat (length ps) = Z.of_nat (length gs) + BUFFER_SIZE - 1).
Proof.
  intros HN H. rewrite (full_occupancy b (holds_wf _ _ _ HN H)).
  rewrite (holds_occupancy _ _ _ HN H). lia.
Qed.

Lemma holds_zeroed : 0 < BUFFER_SIZE → holds zeroed [] [].
Proof.
  intros HN. unfold holds, zeroed; simpl.
  rewrite length_replicate, Z.mod_0_l by lia.
  repeat split; lia.
Qed.

Lemma holds_init env b :
  holds b [] [] → holds (init env b) [] [].
Proof.
  unfold holds, init; simpl. intros (Hl & Hr & Hw & Hb & Ht & Hs).
  rewrite Zmod_0_l. repeat split; try lia; auto.
Qed.

Lemma holds_Store b ps gs data b' :
  0 < BUFFER_SIZE → holds b ps gs → Store b data = Some b' →
  holds b' (ps ++ [data]) gs.
Proof.
  intros HN H HS.
  pose proof (holds_full _ _ _ HN H) as Hfull.
  destruct H as (Hl & Hr & Hw & Hb & Ht & Hs).
  unfold Store in HS. destruct (full b) eqn:Hf; [discriminate|].
  injection HS as <-. unfold holds; simpl.
  assert (Z.of_nat (length ps) ≠ Z.of_nat (length gs) + BUFFER_SIZE - 1)
    as Hroom by (intros Hc; apply Hfull in Hc; discriminate).
  rewrite length_insert, length_app; simpl.
  split; [exact Hl|]. split; [exact Hr|].
  split. { rewrite Hw, advance_mod by lia. f_equal. lia. }
  split; [lia|].
  split. { rewrite take_app_le by lia. exact Ht. }
  intros k Hk. rewrite Hw.
  destruct (decide (k = length ps)) as [->|Hne].
  - rewrite list_lookup_middle by reflexivity.
    apply list_lookup_insert_eq. rewrite Hl.
    pose proof (Z.mod_pos_bound (Z.of_nat (length ps)) BUFFER_SIZE HN). lia.
  - rewrite lookup_app_l by lia.
    rewrite list_lookup_insert_ne; [apply Hs; lia|].
    intros Heq. apply Z2Nat.inj in Heq;
      try (apply Z.mod_pos_bound; lia).
    symmetry in Heq. apply mod_close in Heq; lia.
Qed.

Lemma holds_Get b ps gs d b' :
  0 < BUFFER_SIZE → holds b ps gs → Get b = Some (d, b') →
  holds b' ps (gs ++ [d]) ∧ ps !! length gs = Some d.
Proof.
  intros HN H HG.
  pose proof (holds_empty _ _ _ HN H) as Hempty.
  destruct H as (Hl & Hr & Hw & Hb & Ht & Hs).
  unfold Get in HG. destruct (empty b) eqn:He; [discriminate|].
  injection HG as Hd <-.
  assert (length ps ≠ length gs)
    as Hsome by (intros Hc; apply Hempty in Hc; discriminate).
  assert (ps !! length gs = Some d) as Hlook.
  { rewrite <- Hs by lia. rewrite <- Hr.
    destruct (buffer b !! Z.to_nat (read b)) as [x|] eqn:Hx.
    - simpl in Hd. congruence.
    - apply lookup_ge_None in Hx. rewrite Hl, Hr in Hx.
      pose proof (Z.mod_pos_bound (Z.of_nat (length gs)) BUFFER_SIZE HN).
      lia. }
  split; [|exact Hlook]. unfold holds; simpl.
  rewrite length_app; simpl.
  split; [exact Hl|].
  split. { rewrite Hr, advance_mod by lia. f_equal. lia. }
  split; [exact Hw|]. split; [lia|].
  split.
  { replace (length gs + 1)%nat with (S (length gs)) by lia.
    rewrite (take_S_r _ _ _ Hlook). congruence. }
  intros k Hk. apply Hs. lia.
Qed.

(** ** Histories *)

Lemma pushed_snoc t e :
  pushed (t ++ [e])
  = pushed t ++ match stored e with Some d => [d] | None => [] end.
Proof.
  unfold pushed. rewrite omap_app. simpl. destruct (stored e); reflexivity.
Qed.

Lemma popped_snoc t e :
  popped (t ++ [e])
  = popped t ++ match got e with Some d => [d] | None => [] end.
Proof.
  unfold popped. rewrite omap_app. simpl. destruct (got e); reflexivity.
Qed.

Lemma shown_snoc t e :
  shown (t ++ [e])
  = shown t ++ match printed e with Some d => [d] | None => [] end.
Proof.
  unfold shown. rewrite omap_app. simpl. destruct (printed e); reflexivity.
Qed.

Lemma wakes_snoc t e :
  wakes (t ++ [e])
  = (wakes t + match spurious e with Some _ => 1 | None => 0 end)%nat.
Proof.
  unfold wakes. rewrite omap_app, length_app. simpl.
  destruct (spurious e); reflexivity.
Qed.

Ltac snoc :=
  rewrite ?pushed_snoc, ?popped_snoc, ?shown_snoc, ?wakes_snoc, ?length_app;
  cbn [stored got printed spurious length]; rewrite ?app_nil_r.

Lemma seqZ_snoc n : 0 ≤ n → seqZ 0 n ++ [n] = seqZ 0 (n + 1).
Proof.
  intros Hn. rewrite seqZ_app by lia.
  reflexivity.
Qed.

(** ** Every step keeps the invariant *)

Lemma Inv_boot env : 0 < BUFFER_SIZE → Inv env [] boot.
Proof.
  intros HN. split; simpl.
  - apply holds_zeroed, HN.
  - reflexivity.
  - split; reflexivity.
  - split; reflexivity.
  - unfold potential, budget; simpl. lia.
Qed.

Lemma Inv_main env t w e w' :
  Inv env t w → main env w = Some (e, w') → Inv env (t ++ [e]) w'.
Proof.
  intros [Hh Hp Hc Hm Hcost] Hstep.
  destruct w as [b ok m p c]. unfold main, main_inv, potential in *.
  simpl in *.
  destruct m; split_ands; subst; simpl in *; try discriminate.
  - (* init *)
    injection Hstep as <- <-. destruct Hc as [Hg Hs].
    split; unfold main_inv, potential; simpl; snoc; try (split; assumption).
    + rewrite Hp, Hg in *. apply holds_init, Hh.
    + assumption.
    + auto.
    + lia.
  - (* pthread_create(&th_a, NULL, Consumer, NULL) *)
    injection Hstep as <- <-. destruct Hc as [Hg Hs].
    split; unfold main_inv, potential; simpl; snoc; try assumption.
    + rewrite Hg, Hs. split; [reflexivity|apply not_elem_of_nil].
    + repeat split; congruence.
    + lia.
  - (* pthread_create(&th_b, NULL, Producer, NULL) *)
    injection Hstep as <- <-.
    split; unfold main_inv, potential; simpl; snoc; try assumption.
    + split; [unfold quota; lia|]. rewrite Hp. symmetry.
      apply seqZ_nil. lia.
    + repeat split; congruence.
    + lia.
  - (* pthread_join(th_a, ...) *)
    destruct c; try discriminate. injection Hstep as <- <-.
    split; unfold main_inv, potential; simpl; snoc; try assumption.
    + repeat split; congruence.
    + simpl in Hcost. lia.
  - (* pthread_join(th_b, ...) *)
    destruct p; try discriminate. injection Hstep as <- <-.
    split; unfold main_inv, potential; simpl; snoc; try assumption.
    + repeat split; congruence.
    + simpl in Hcost. lia.
  - (* destroy, return (0) *)
    injection Hstep as <- <-.
    split; unfold main_inv, potential; simpl; snoc; try assumption.
    + repeat split; congruence.
    + lia.
Qed.

(** A thread that was created and has not returned may change its place
    without disturbing what [main] relies on. *)
Ltac main_kept Hm :=
  unfold main_inv in *; simpl in *;
  match type of Hm with
  | match ?m with _ => _ end => destruct m
  end;
  split_ands; repeat split; solve [assumption | congruence].

Lemma Inv_Producer env t w e w' :
  0 < BUFFER_SIZE →
  Inv env t w → Producer w = Some (e, w') → Inv env (t ++ [e]) w'.
Proof.
  intros HN [Hh Hp Hc Hm Hcost] Hstep.
  destruct w as [b ok m p c]. unfold Producer, potential in *.
  simpl in *.
  destruct p as [|n|s|s|]; simpl in *; try discriminate.
  - (* for (n = 0; n < COUNT; n++) *)
    destruct Hp as [Hn Hps].
    destruct (Z.ltb_spec n COUNT) as [Hlt|Hge]; injection Hstep as <- <-;
      (split; unfold potential; simpl; snoc; try assumption;
       [ | main_kept Hm | lia ]).
    + split; [lia|assumption].
    + rewrite Hps. f_equal. unfold quota in *. lia.
  - (* Store(&buffer, ...) *)
    destruct ok; [|discriminate].
    destruct (Store b (arg s)) as [b'|] eqn:HS; injection Hstep as <- <-.
    + (* the slot is written *)
      split; unfold potential; simpl; snoc.
      * eapply holds_Store; eassumption.
      * destruct s as [n|]; simpl in *.
        -- destruct Hp as [Hn ->]. unfold quota.
           split; [lia|]. apply seqZ_snoc. lia.
        -- rewrite Hp. reflexivity.
      * destruct c; simpl in *; tauto.
      * destruct s, c; main_kept Hm.
      * destruct c, s; simpl in *; lia.
    + (* pthread_cond_wait(&b->notFull, &b->key) *)
      split; unfold potential; simpl; snoc; try assumption.
      * split; [assumption|]. unfold Store in HS.
        destruct (full b); [reflexivity|discriminate].
      * main_kept Hm.
      * lia.
Qed.

Lemma Inv_Consumer env t w e w' :
  0 < BUFFER_SIZE →
  Inv env t w → Consumer w = Some (e, w') → Inv env (t ++ [e]) w'.
Proof.
  intros HN [Hh Hp Hc Hm Hcost] Hstep.
  destruct w as [b ok m p c]. unfold Consumer, potential in *.
  simpl in *.
  destruct c as [| | |d|]; simpl in *; try discriminate.
  - (* d = Get(&buffer) *)
    destruct ok; [|discriminate].
    destruct (Get b) as [[d b']|] eqn:HG; injection Hstep as <- <-.
    + (* the slot is read *)
      destruct (holds_Get _ _ _ _ _ HN Hh HG) as [Hh' _].
      destruct Hc as [Hs Hno].
      split; unfold potential; simpl; snoc.
      * assumption.
      * destruct p; simpl in *; tauto.
      * rewrite Hs. split; [reflexivity|assumption].
      * destruct p; main_kept Hm.
      * destruct p; simpl in *; lia.
    + (* pthread_cond_wait(&b->notEmpty, &b->key) *)
      split; unfold potential; simpl; snoc; try assumption.
      * split; [assumption|]. unfold Get in HG.
        destruct (empty b); [reflexivity|discriminate].
      * main_kept Hm.
      * lia.
  - (* if (d == LIMIT) break; printf *)
    destruct Hc as [Hg Hno].
    destruct (Z.eqb_spec d LIMIT) as [->|Hne]; injection Hstep as <- <-;
      (split; unfold potential; simpl; snoc; try assumption;
       [ | main_kept Hm | lia ]).
    + split; assumption.
    + split; [congruence|]. rewrite Hg.
      rewrite elem_of_app, list_elem_of_singleton. intros [?|?]; auto.
Qed.

Lemma Inv_spurious_notFull env t w e w' :
  Inv env t w → spurious_notFull w = Some (e, w') → Inv env (t ++ [e]) w'.
Proof.
  intros [Hh Hp Hc Hm Hcost] Hstep.
  destruct w as [b ok m p c]. unfold spurious_notFull, potential in *.
  simpl in *. destruct p; try discriminate. injection Hstep as <- <-.
  split; unfold potential; simpl in *; snoc; try assumption.
  - tauto.
  - main_kept Hm.
  - lia.
Qed.

Lemma Inv_spurious_notEmpty env t w e w' :
  Inv env t w → spurious_notEmpty w = Some (e, w') → Inv env (t ++ [e]) w'.
Proof.
  intros [Hh Hp Hc Hm Hcost] Hstep.
  destruct w as [b ok m p c]. unfold spurious_notEmpty, potential in *.
  simpl in *. destruct c; try discriminate. injection Hstep as <- <-.
  split; unfold potential; simpl in *; snoc; try assumption.
  - tauto.
  - main_kept Hm.
  - lia.
Qed.

Lemma Inv_step env t w a e w' :
  0 < BUFFER_SIZE →
  Inv env t w → step env a w = Some (e, w') → Inv env (t ++ [e]) w'.
Proof.
  intros HN HI Hstep. destruct a; simpl in Hstep.
  - eapply Inv_main; eassumption.
  - eapply Inv_Producer; eassumption.
  - eapply Inv_Consumer; eassumption.
  - eapply Inv_spurious_notFull; eassumption.
  - eapply Inv_spurious_notEmpty; eassumption.
Qed.

Lemma reaches_Inv env t w :
  0 < BUFFER_SIZE → reaches env t w → Inv env t w.
Proof.
  intros HN H. induction H as [|t w a e w' _ IH Hstep].
  - apply Inv_boot, HN.
  - eapply Inv_step; eassumption.
Qed.

Lemma run_reaches env sched : ∀ t w t' w',
  reaches env t w → run env sched (t, w) = Some (t', w') →
  reaches env t' w'.
Proof.
  induction sched as [|a sched IH]; intros t w t' w' Hr Hrun; simpl in Hrun.
  - injection Hrun as <- <-. exact Hr.
  - destruct (step env a w) as [[e w1]|] eqn:Hstep; [|discriminate].
    eapply IH; [|exact Hrun]. eapply reaches_step; eassumption.
Qed.

Lemma run_boot env sched t w :
  run env sched ([], boot) = Some (t, w) → reaches env t w.
Proof. apply run_reaches. constructor. Qed.

(** ** Consequences of the invariant *)

Lemma seqZ_quota : seqZ 0 quota = seqZ 0 COUNT.
Proof.
  unfold quota. destruct (Z.max_spec 0 COUNT) as [[_ ->]|[Hle ->]].
  - reflexivity.
  - rewrite !seqZ_nil by lia. reflexivity.
Qed.

Lemma prod_inv_prefix b ps p :
  prod_inv b ps p → ∃ rest, ps ++ rest = seqZ 0 COUNT ++ [LIMIT].
Proof.
  rewrite <- seqZ_quota.
  assert (∀ n, 0 ≤ n ≤ quota → ps = seqZ 0 n →
               ∃ rest, ps ++ rest = seqZ 0 quota ++ [LIMIT]) as Hpre.
  { intros n Hn ->. exists (seqZ n (quota - n) ++ [LIMIT]).
    rewrite app_assoc. f_equal.
    replace quota with (n + (quota - n)) at 2 by lia.
    rewrite seqZ_app by lia. reflexivity. }
  assert (∀ s, site_inv ps s → ∃ rest, ps ++ rest = seqZ 0 quota ++ [LIMIT])
    as Hsite.
  { intros [n|]; simpl.
    - intros [Hn Hps]. apply (Hpre n); [unfold quota; lia|exact Hps].
    - intros Hps. apply (Hpre quota); [unfold quota; lia|exact Hps]. }
  destruct p as [|n|s|s|]; simpl.
  - intros ->. eexists. reflexivity.
  - intros [Hn Hps]. eapply Hpre; eassumption.
  - apply Hsite.
  - intros [Hs _]. exact (Hsite s Hs).
  - intros ->. exists []. apply app_nil_r.
Qed.

Lemma prod_inv_length b ps p :
  prod_inv b ps p → Z.of_nat (length ps) ≤ quota + 1.
Proof.
  intros H. destruct (prod_inv_prefix _ _ _ H) as [rest Hrest].
  apply (f_equal length) in Hrest.
  rewrite !length_app, <- seqZ_quota, length_seqZ in Hrest. simpl in Hrest.
  unfold quota in *. lia.
Qed.

(** Before the producer has returned, the sentinel is not in the buffer
    history (given that it is no data item). *)
Lemma prod_inv_sentinel b ps p :
  no_collision → prod_inv b ps p → LIMIT ∈ ps → p = PDone.
Proof.
  intros Hnc H Hin.
  assert (∀ n, n ≤ quota → ps = seqZ 0 n → False) as Hpre.
  { intros n Hn ->. apply elem_of_seqZ in Hin.
    unfold no_collision, quota in *. lia. }
  assert (∀ s, site_inv ps s → False) as Hsite.
  { intros [n|]; simpl.
    - intros [Hn Hps]. apply (Hpre n); [unfold quota; lia|exact Hps].
    - apply Hpre. lia. }
  destruct p as [|n|s|s|]; simpl in H.
  - subst ps. apply elem_of_nil in Hin. contradiction.
  - destruct H as [Hn Hps]. exfalso. apply (Hpre n); [lia|exact Hps].
  - exfalso. exact (Hsite _ H).
  - exfalso. destruct H as [H _]. exact (Hsite _ H).
  - reflexivity.
Qed.

Lemma potential_nonneg env t w : Inv env t w → 0 ≤ potential t w.
Proof.
  intros [Hh Hp Hc Hm Hcost].
  pose proof (prod_inv_length _ _ _ Hp) as Hlen.
  destruct Hh as (_ & _ & _ & Hb & _).
  assert (0 ≤ main_rank (main_at w)) by (destruct (main_at w); simpl; lia).
  assert (0 ≤ cons_rank (cons_at w)) by (destruct (cons_at w); simpl; lia).
  assert (0 ≤ prod_rank (prod_at w)).
  { destruct (prod_at w) as [|n|[n|]|[n|]|]; simpl in *;
      unfold quota in *; lia. }
  unfold potential. lia.
Qed.

Lemma thread_step_quiet env a w e w' :
  thread a = true → step env a w = Some (e, w') → spurious e = None.
Proof.
  intros Ha Hstep. destruct a; try discriminate; simpl in Hstep.
  - unfold main in Hstep.
    destruct (main_at w), (cons_at w), (prod_at w);
      try discriminate; injection Hstep as <- _; reflexivity.
  - unfold Producer in Hstep.
    destruct (prod_at w); try discriminate.
    + destruct (_ <? _); injection Hstep as <- _; reflexivity.
    + destruct (sync_ok w); [|discriminate].
      destruct (Store _ _); injection Hstep as <- _; reflexivity.
  - unfold Consumer in Hstep.
    destruct (cons_at w); try discriminate.
    + destruct (sync_ok w); [|discriminate].
      destruct (Get _) as [[? ?]|]; injection Hstep as <- _; reflexivity.
    + destruct (_ =? _); injection Hstep as <- _; reflexivity.
Qed.

Lemma holds_subset b ps gs x : holds b ps gs → x ∈ gs → x ∈ ps.
Proof.
  intros (_ & _ & _ & _ & Ht & _) Hin. rewrite Ht in Hin.
  eapply subseteq_take, Hin.
Qed.

Lemma holds_all_taken b ps gs :
  holds b ps gs → length ps = length gs → gs = ps.
Proof.
  intros (_ & _ & _ & _ & Ht & _) Hlen. rewrite Ht, <- Hlen.
  apply take_ge. lia.
Qed.

(** ** Nobody sleeps for ever *)

Lemma Producer_moves w :
  sync_ok w = true →
  (∃ n, prod_at w = PFor n) ∨ (∃ s, prod_at w = PStore s) →
  ∃ e w', Producer w = Some (e, w').
Proof.
  intros Hok [[n Hp]|[s Hp]]; unfold Producer; rewrite Hp.
  - destruct (n <? COUNT); eauto.
  - rewrite Hok. destruct (Store (buf w) (arg s)); eauto.
Qed.

Lemma Consumer_moves w :
  sync_ok w = true →
  cons_at w = CGet ∨ (∃ d, cons_at w = CGot d) →
  ∃ e w', Consumer w = Some (e, w').
Proof.
  intros Hok [Hc|[d Hc]]; unfold Consumer; rewrite Hc.
  - rewrite Hok. destruct (Get (buf w)) as [[d b']|]; eauto.
  - destruct (d =? LIMIT); eauto.
Qed.

(** A sleeping producer with a sleeping consumer would need a buffer that
    is full and empty at once. *)
Lemma not_both_asleep b ps gs :
  2 ≤ BUFFER_SIZE → holds b ps gs →
  full b = true → empty b = true → False.
Proof.
  intros HN Hh Hf He.
  apply (holds_full b ps gs) in Hf; [|lia|exact Hh].
  apply (holds_empty b ps gs) in He; [|lia|exact Hh]. lia.
Qed.

Lemma progress env t w :
  2 ≤ BUFFER_SIZE → no_collision → init_ok env = true →
  Inv env t w →
  finished w
  ∨ ∃ a e w', thread a = true ∧ step env a w = Some (e, w').
Proof.
  intros HN Hnc Hok [Hh Hp Hc Hm Hcost].
  assert (∀ a, thread a = true → (∃ e w', step env a w = Some (e, w')) →
          finished w
          ∨ ∃ a e w', thread a = true ∧ step env a w = Some (e, w'))
    as Hgo by (intros a Ha (e & w' & Hs); right; eauto).
  assert (sync_ok w = true →
          prod_at w = PDone ∨ (∃ s, prod_at w = PWait s) ∨ prod_at w = PIdle
          ∨ ∃ e w', step env TProducer w = Some (e, w'))
    as Hprod.
  { intros Hs. destruct (prod_at w) as [|n|s|s|] eqn:Hpa; eauto.
    - destruct (Producer_moves w Hs) as (e & w' & Hstep); [eauto|].
      do 3 right. exists e, w'. exact Hstep.
    - destruct (Producer_moves w Hs) as (e & w' & Hstep); [eauto|].
      do 3 right. exists e, w'. exact Hstep. }
  unfold main_inv in Hm.
  destruct (main_at w) as [| | | | | |st] eqn:Hma; split_ands; subst.
  - apply (Hgo TMain); [reflexivity|]. simpl. unfold main. rewrite Hma. eauto.
  - apply (Hgo TMain); [reflexivity|]. simpl. unfold main. rewrite Hma. eauto.
  - apply (Hgo TMain); [reflexivity|]. simpl. unfold main. rewrite Hma. eauto.
  - (* main waits for the consumer *)
    assert (sync_ok w = true) as Hs by congruence.
    destruct (cons_at w) as [| | |d|] eqn:Hca; try congruence.
    + apply (Hgo TConsumer); [reflexivity|].
      apply Consumer_moves; [exact Hs|]. left. exact Hca.
    + (* the consumer sleeps: the producer is awake *)
      simpl in Hc. destruct Hc as [[Hsg Hno] He].
      destruct (Hprod Hs) as [Hpd|[[s Hpw]|[Hpi|Hstep]]];
        try congruence.
      * rewrite Hpd in Hp. simpl in Hp.
        apply (holds_empty _ _ _ ltac:(lia) Hh) in He.
        rewrite (holds_all_taken _ _ _ Hh He) in Hno.
        exfalso. apply Hno. rewrite Hp, elem_of_app, list_elem_of_singleton.
        right. reflexivity.
      * rewrite Hpw in Hp. simpl in Hp. destruct Hp as [_ Hf].
        exfalso. eapply not_both_asleep; eassumption.
      * apply (Hgo TProducer); [reflexivity|exact Hstep].
    + apply (Hgo TConsumer); [reflexivity|].
      apply Consumer_moves; [exact Hs|]. right. eauto.
    + apply (Hgo TMain); [reflexivity|]. simpl. unfold main.
      rewrite Hma, Hca. eauto.
  - (* main waits for the producer, the consumer has returned *)
    match goal with Hcd : cons_at w = CDone |- _ =>
      rewrite Hcd in Hc; simpl in Hc end.
    destruct Hc as [Hg Hno].
    assert (LIMIT ∈ pushed t) as Hin.
    { eapply holds_subset; [exact Hh|]. rewrite Hg, elem_of_app.
      right. apply list_elem_of_singleton. reflexivity. }
    pose proof (prod_inv_sentinel _ _ _ Hnc Hp Hin) as Hpd.
    apply (Hgo TMain); [reflexivity|]. simpl. unfold main.
    rewrite Hma, Hpd. eauto.
  - apply (Hgo TMain); [reflexivity|]. simpl. unfold main. rewrite Hma. eauto.
  - left. unfold finished. rewrite Hma. auto.
Qed.

(** From any state of a run, letting the threads move leads to the end:
    [k] bounds the steps still needed. *)
Lemma finishes env :
  2 ≤ BUFFER_SIZE → no_collision → init_ok env = true →
  ∀ (k : nat) t w,
    Inv env t w →
    budget + 2 * Z.of_nat (wakes t) - Z.of_nat (length t) ≤ Z.of_nat k →
    ∃ sched t' w',
      forallb thread sched = true
      ∧ run env sched (t, w) = Some (t', w') ∧ finished w'.
Proof.
  intros HN Hnc Hok. induction k as [|k IH]; intros t w HI Hk.
  - destruct (progress env t w HN Hnc Hok HI)
      as [Hfin|(a & e & w' & Ha & Hstep)].
    + exists [], t, w. auto.
    + exfalso.
      pose proof (Inv_step env t w a e w' ltac:(lia) HI Hstep) as HI'.
      pose proof (potential_nonneg _ _ _ HI') as Hpos.
      pose proof (inv_cost _ _ _ HI') as Hcost.
      rewrite wakes_snoc, (thread_step_quiet _ _ _ _ _ Ha Hstep) in Hcost.
      rewrite length_app in Hcost. simpl in Hcost. lia.
  - destruct (progress env t w HN Hnc Hok HI)
      as [Hfin|(a & e & w' & Ha & Hstep)].
    + exists [], t, w. auto.
    + pose proof (Inv_step env t w a e w' ltac:(lia) HI Hstep) as HI'.
      destruct (IH (t ++ [e]) w' HI') as (sched & t' & w'' & Hall & Hrun & Hf).
      { rewrite wakes_snoc, (thread_step_quiet _ _ _ _ _ Ha Hstep).
        rewrite length_app. simpl. lia. }
      exists (a :: sched), t', w''. simpl. rewrite Ha, Hstep. auto.
Qed.

(** ** The sentinel in the two histories *)

Lemma filter_all (P : Z → Prop) `{!∀ x, Decision (P x)} (l : list Z) :
  Forall P l → filter P l = l.
Proof.
  induction 1 as [|x l Hx _ IH]; [reflexivity|].
  rewrite filter_cons_True by exact Hx. f_equal. exact IH.
Qed.

Lemma sentinel_not_data : no_collision → LIMIT ∉ seqZ 0 COUNT.
Proof.
  intros Hnc Hin. apply elem_of_seqZ in Hin. unfold no_collision in Hnc. lia.
Qed.

Lemma data_without_sentinel :
  no_collision →
  filter (λ d, d ≠ LIMIT) (seqZ 0 COUNT ++ [LIMIT]) = seqZ 0 COUNT.
Proof.
  intros Hnc. rewrite filter_app.
  rewrite (filter_singleton_False (λ d, d ≠ LIMIT) LIMIT [])
    by (intros H; apply H; reflexivity).
  rewrite app_nil_r. apply filter_all. apply Forall_forall.
  intros x Hx ->. exact (sentinel_not_data Hnc Hx).
Qed.

(** Once the sentinel has been taken out, everything has been: the gets
    are the stores, and they are the data items followed by the sentinel. *)
Lemma sentinel_last env t w :
  no_collision → Inv env t w → LIMIT ∈ popped t →
  pushed t = seqZ 0 COUNT ++ [LIMIT] ∧ popped t = pushed t.
Proof.
  intros Hnc [Hh Hp Hc Hm Hcost] Hin.
  pose proof (holds_subset _ _ _ _ Hh Hin) as Hin'.
  pose proof (prod_inv_sentinel _ _ _ Hnc Hp Hin') as Hpd.
  rewrite Hpd in Hp. simpl in Hp. rewrite seqZ_quota in Hp.
  split; [exact Hp|]. apply (holds_all_taken _ _ _ Hh).
  destruct Hh as (_ & _ & _ & Hb & Ht & _).
  destruct (decide (length (pushed t) = length (popped t)))
    as [Heq|Hne]; [exact Heq|exfalso].
  rewrite Ht, Hp in Hin. rewrite Hp, length_app in Hb, Hne. simpl in Hb, Hne.
  rewrite take_app_le in Hin by lia.
  apply subseteq_take in Hin. exact (sentinel_not_data Hnc Hin).
Qed.

(** What was printed is the data taken so far, short of the value the
    consumer still holds in [d]. *)
Lemma shown_prefix env t w :
  Inv env t w → ∃ rest, shown t ++ rest = popped t.
Proof.
  intros [_ _ Hc _ _]. destruct (cons_at w); simpl in Hc.
  - destruct Hc as [-> ->]. exists []. reflexivity.
  - destruct Hc as [-> _]. exists []. apply app_nil_r.
  - destruct Hc as [[-> _] _]. exists []. apply app_nil_r.
  - destruct Hc as [-> _]. eauto.
  - destruct Hc as [-> _]. eauto.
Qed.

Lemma shown_clean env t w : Inv env t w → LIMIT ∉ shown t.
Proof.
  intros [_ _ Hc _ _]. destruct (cons_at w); simpl in Hc.
  - destruct Hc as [_ ->]. apply not_elem_of_nil.
  - destruct Hc as [-> H]. exact H.
  - destruct Hc as [[-> H] _]. exact H.
  - tauto.
  - tauto.
Qed.

(** What was printed is at every moment a beginning of the data items. *)
Lemma shown_data env t w :
  Inv env t w → ∃ rest, shown t ++ rest = seqZ 0 COUNT.
Proof.
  intros HI. destruct (shown_prefix env t w HI) as [r1 H1].
  pose proof (inv_holds _ _ _ HI) as (_ & _ & _ & _ & Ht & _).
  destruct (prod_inv_prefix _ _ _ (inv_prod _ _ _ HI)) as [r3 H3].
  rewrite <- (take_drop (length (popped t)) (pushed t)), <- Ht, <- H1 in H3.
  rewrite <- !app_assoc in H3.
  remember (r1 ++ drop (length (shown t ++ r1)) (pushed t) ++ r3) as R.
  clear HeqR. destruct R as [|x R] using rev_ind.
  - exfalso. apply (shown_clean env t w HI).
    rewrite app_nil_r in H3. rewrite H3, elem_of_app, list_elem_of_singleton.
    auto.
  - rewrite app_assoc in H3. apply app_inj_tail in H3 as [H3 _].
    exists R. exact H3.
Qed.

Lemma shown_complete env t w :
  no_collision → Inv env t w → cons_at w = CDone →
  shown t = seqZ 0 COUNT.
Proof.
  intros Hnc HI Hdone. pose proof (inv_cons _ _ _ HI) as Hc.
  rewrite Hdone in Hc. simpl in Hc. destruct Hc as [Hg _].
  assert (LIMIT ∈ popped t) as Hin.
  { rewrite Hg, elem_of_app, list_elem_of_singleton. auto. }
  destruct (sentinel_last env t w Hnc HI Hin) as [Hps Heq].
  rewrite Heq, Hps in Hg. apply app_inj_tail in Hg as [Hg _].
  symmetry. exact Hg.
Qed.

(** ** The buffer is a queue *)

Lemma ring_index r k :
  0 ≤ r < BUFFER_SIZE → 0 ≤ k < BUFFER_SIZE →
  (r + k) mod BUFFER_SIZE
  = if r + k <? BUFFER_SIZE then r + k else r + k - BUFFER_SIZE.
Proof.
  intros Hr Hk. destruct (Z.ltb_spec (r + k) BUFFER_SIZE).
  - mod_is 0.
  - mod_is 1.
Qed.

Lemma contents_length b :
  Z.of_nat (length (contents b)) = Z.max 0 (occupancy b).
Proof. unfold contents. rewrite length_fmap, length_seq. lia. Qed.

Lemma contents_Store b data b' :
  buffer_wf b → Store b data = Some b' →
  contents b' = contents b ++ [data].
Proof.
  intros Hwf HS. pose proof Hwf as (Hl & Hr & Hw).
  destruct (Store_occupancy b data b' Hwf HS) as [Ho Hle].
  pose proof (occupancy_range b ltac:(lia)) as Hrange.
  unfold Store in HS. destruct (full b); [discriminate|].
  injection HS as <-. unfold contents at 1. rewrite Ho. cbn [read].
  replace (Z.to_nat (occupancy b + 1)) with (S (Z.to_nat (occupancy b)))
    by lia.
  rewrite seq_S, fmap_app. cbn [fmap list_fmap]. f_equal.
  - apply list_fmap_ext. intros i k Hk.
    apply lookup_seq in Hk as [-> Hk]. unfold slot. cbn [buffer].
    rewrite list_lookup_insert_ne; [reflexivity|].
    intros Heq. apply Z2Nat.inj in Heq;
      [|lia|apply Z.mod_pos_bound; lia].
    rewrite ring_index in Heq by lia.
    destruct (occupancy_cases b Hwf) as [[? Hc]|[? Hc]];
      destruct (Z.ltb_spec (read b + Z.of_nat (0 + i)) BUFFER_SIZE); lia.
  - f_equal. unfold slot. cbn [buffer Nat.add].
    replace ((read b + Z.of_nat (Z.to_nat (occupancy b))) mod BUFFER_SIZE)
      with (write b).
    + rewrite list_lookup_insert_eq by lia. reflexivity.
    + rewrite ring_index by lia.
      destruct (occupancy_cases b Hwf) as [[? Hc]|[? Hc]];
        destruct (Z.ltb_spec (read b + Z.of_nat (Z.to_nat (occupancy b)))
                    BUFFER_SIZE); lia.
Qed.

Lemma contents_Get b d b' :
  buffer_wf b → Get b = Some (d, b') →
  contents b = d :: contents b'.
Proof.
  intros Hwf HG. pose proof Hwf as (Hl & Hr & Hw).
  destruct (Get_occupancy b d b' Hwf HG) as [Ho Hge].
  unfold Get in HG. destruct (empty b); [discriminate|].
  injection HG as Hd <-. unfold contents. rewrite Ho.
  replace (Z.to_nat (occupancy b))
    with (S (Z.to_nat (occupancy b - 1))) by lia.
  cbn [seq fmap list_fmap read]. f_equal.
  - rewrite Z.add_0_r, Z.mod_small by lia. exact Hd.
  - rewrite <- fmap_S_seq, <- list_fmap_compose.
    apply list_fmap_ext. intros i k _. unfold slot, compose. cbn [buffer].
    rewrite advance_small by lia.
    rewrite Z.add_mod_idemp_l by lia.
    replace (read b + Z.of_nat (S k)) with (read b + 1 + Z.of_nat k) by lia.
    reflexivity.
Qed.

Lemma contents_empty b :
  buffer_wf b → (empty b = true ↔ contents b = []).
Proof.
  intros Hwf. rewrite (empty_occupancy b Hwf).
  pose proof (contents_length b) as Hlen.
  pose proof (occupancy_range b ltac:(destruct Hwf; lia)).
  split.
  - intros Ho. apply length_zero_iff_nil. lia.
  - intros Hc. rewrite Hc in Hlen. simpl in Hlen. lia.
Qed.

Lemma contents_full b :
  buffer_wf b →
  (full b = true ↔ Z.of_nat (length (contents b)) = BUFFER_SIZE - 1).
Proof.
  intros Hwf. rewrite (full_occupancy b Hwf), contents_length.
  pose proof (occupancy_range b ltac:(destruct Hwf; lia)). lia.
Qed.

Lemma Store_all_contents ds : ∀ b,
  buffer_wf b →
  Z.of_nat (length (contents b)) + Z.of_nat (length ds) ≤ BUFFER_SIZE - 1 →
  ∃ b1, Store_all b ds = Some b1 ∧ buffer_wf b1
        ∧ contents b1 = contents b ++ ds.
Proof.
  induction ds as [|d ds IH]; intros b Hwf Hroom; simpl in *.
  - exists b. rewrite app_nil_r. auto.
  - destruct (Store b d) as [b'|] eqn:HS.
    + pose proof (Store_wf _ _ _ Hwf HS) as Hwf'.
      pose proof (contents_Store _ _ _ Hwf HS) as Hc.
      destruct (IH b' Hwf') as (b1 & H1 & H2 & H3).
      { rewrite Hc, length_app. simpl. lia. }
      exists b1. rewrite H3, Hc, <- app_assoc. auto.
    + exfalso. unfold Store in HS. destruct (full b) eqn:Hf; [|discriminate].
      apply (contents_full b Hwf) in Hf. lia.
Qed.

Lemma Get_n_contents ds : ∀ b rest,
  buffer_wf b → contents b = ds ++ rest →
  ∃ b2, Get_n b (length ds) = Some (ds, b2) ∧ buffer_wf b2
        ∧ contents b2 = rest.
Proof.
  induction ds as [|d ds IH]; intros b rest Hwf Hc; simpl in *.
  - exists b. auto.
  - destruct (Get b) as [[d' b']|] eqn:HG.
    + pose proof (Get_wf _ _ _ Hwf HG) as Hwf'.
      pose proof (contents_Get _ _ _ Hwf HG) as Hc'.
      rewrite Hc in Hc'. injection Hc' as -> Hc'.
      destruct (IH b' rest Hwf' (eq_sym Hc')) as (b2 & H1 & H2 & H3).
      exists b2. rewrite H1. auto.
    + exfalso. unfold Get in HG. destruct (empty b) eqn:He; [|discriminate].
      apply (contents_empty b Hwf) in He. congruence.
Qed.

(** ** Every run can be completed *)

Lemma run_extends env sched : ∀ t w t' w',
  run env sched (t, w) = Some (t', w') → ∃ more, t' = t ++ more.
Proof.
  induction sched as [|a sched IH]; intros t w t' w' Hrun; simpl in Hrun.
  - injection Hrun as <- _. exists []. symmetry. apply app_nil_r.
  - destruct (step env a w) as [[e w1]|]; [|discriminate].
    destruct (IH _ _ _ _ Hrun) as [more ->].
    exists (e :: more). rewrite <- app_assoc. reflexivity.
Qed.

(** Once a worker exists the primitives are as [init] left them. *)
Lemma started_sync env t w :
  Inv env t w → prod_at w ≠ PIdle ∨ cons_at w ≠ CIdle →
  sync_ok w = init_ok env.
Proof.
  intros HI Hstarted. pose proof (inv_main _ _ _ HI) as Hm.
  unfold main_inv in Hm.
  destruct (main_at w); split_ands; try assumption.
  destruct Hstarted; congruence.
Qed.

(** The histories of a run whose consumer has returned. *)
Lemma done_histories env t w :
  no_collision → Inv env t w → cons_at w = CDone →
  pushed t = seqZ 0 COUNT ++ [LIMIT] ∧ popped t = pushed t
  ∧ shown t = seqZ 0 COUNT.
Proof.
  intros Hnc HI Hdone. pose proof (inv_cons _ _ _ HI) as Hc.
  rewrite Hdone in Hc. simpl in Hc. destruct Hc as [Hg _].
  assert (LIMIT ∈ popped t) as Hin.
  { rewrite Hg, elem_of_app, list_elem_of_singleton. auto. }
  destruct (sentinel_last env t w Hnc HI Hin) as [Hps Heq].
  split; [exact Hps|]. split; [exact Heq|].
  apply (shown_complete env t w Hnc HI Hdone).
Qed.

(** A state in which no thread can move is the end of the run. *)
Lemma stuck_finished env t w :
  2 ≤ BUFFER_SIZE → no_collision → init_ok env = true → Inv env t w →
  (∀ a, thread a = true → step env a w = None) → finished w.
Proof.
  intros HN Hnc Hok HI Hstuck.
  destruct (progress env t w HN Hnc Hok HI)
    as [Hfin|(a & e & w' & Ha & Hstep)]; [exact Hfin|].
  rewrite (Hstuck a Ha) in Hstep. discriminate.
Qed.

(** From every state of a run the threads can go on, without any spurious
    wake-up, to the end, where every value has been stored, taken and
    (the sentinel apart) printed. *)
Lemma completes env t w :
  2 ≤ BUFFER_SIZE → no_collision → init_ok env = true → reaches env t w →
  ∃ sched t' w',
    forallb thread sched = true
    ∧ run env sched (t, w) = Some (t', w')
    ∧ (∃ more, t' = t ++ more)
    ∧ finished w'
    ∧ pushed t' = seqZ 0 COUNT ++ [LIMIT]
    ∧ popped t' = pushed t'
    ∧ shown t' = seqZ 0 COUNT.
Proof.
  intros HN Hnc Hok Hr.
  pose proof (reaches_Inv env t w ltac:(lia) Hr) as HI.
  pose proof (potential_nonneg _ _ _ HI) as Hpos.
  pose proof (inv_cost _ _ _ HI) as Hcost.
  destruct (finishes env HN Hnc Hok
              (Z.to_nat (budget + 2 * Z.of_nat (wakes t)
                         - Z.of_nat (length t))) t w HI ltac:(lia))
    as (sched & t' & w' & Hall & Hrun & Hfin).
  exists sched, t', w'.
  pose proof (run_reaches env sched t w t' w' Hr Hrun) as Hr'.
  pose proof (reaches_Inv env t' w' ltac:(lia) Hr') as HI'.
  destruct (done_histories env t' w' Hnc HI') as (H1 & H2 & H3);
    [apply Hfin|].
  split_goal; try assumption.
  eapply run_extends, Hrun.
Qed.

(** Who produced an event, from where, and where it went. *)
Lemma step_event env a w e w' :
  step env a w = Some (e, w') →
  match e with
  | EvStore d =>
      a = TProducer
      ∧ ∃ s, prod_at w = PStore s ∧ arg s = d ∧ prod_at w' = after s
  | EvGet d => a = TConsumer ∧ cons_at w = CGet ∧ cons_at w' = CGot d
  | EvShow d =>
      a = TConsumer ∧ cons_at w = CGot d ∧ d ≠ LIMIT ∧ cons_at w' = CGet
  | _ => True
  end.
Proof.
  intros Hstep. destruct a; simpl in Hstep.
  - unfold main in Hstep.
    destruct (main_at w), (cons_at w), (prod_at w); try discriminate;
      injection Hstep as <- _; exact I.
  - unfold Producer in Hstep. destruct (prod_at w) eqn:Hp; try discriminate.
    + destruct (_ <? _); injection Hstep as <- _; exact I.
    + destruct (sync_ok w); [|discriminate].
      destruct (Store _ _); injection Hstep as <- <-; [|exact I].
      split; [reflexivity|]. exists s. auto.
  - unfold Consumer in Hstep. destruct (cons_at w) eqn:Hc; try discriminate.
    + destruct (sync_ok w); [|discriminate].
      destruct (Get _) as [[d0 b0]|]; injection Hstep as <- <-; [|exact I].
      auto.
    + destruct (Z.eqb_spec d LIMIT); injection Hstep as <- <-; [exact I|].
      auto.
  - unfold spurious_notFull in Hstep. destruct (prod_at w); try discriminate.
    injection Hstep as <- _. exact I.
  - unfold spurious_notEmpty in Hstep.
    destruct (cons_at w); try discriminate.
    injection Hstep as <- _. exact I.
Qed.

(** A completed [Get] returned the oldest value not yet taken. *)
Lemma get_returns_oldest env t w a e w' d :
  0 < BUFFER_SIZE → Inv env t w →
  step env a w = Some (e, w') → got e = Some d →
  pushed t !! length (popped t) = Some d.
Proof.
  intros HN HI Hstep He.
  assert (∃ b', Get (buf w) = Some (d, b')) as [b' HG].
  { destruct a; simpl in Hstep.
    - unfold main in Hstep.
      destruct (main_at w), (cons_at w), (prod_at w); try discriminate;
        injection Hstep as <- _; discriminate.
    - unfold Producer in Hstep. destruct (prod_at w); try discriminate.
      + destruct (_ <? _); injection Hstep as <- _; discriminate.
      + destruct (sync_ok w); [|discriminate].
        destruct (Store _ _); injection Hstep as <- _; discriminate.
    - unfold Consumer in Hstep. destruct (cons_at w); try discriminate.
      + destruct (sync_ok w); [|discriminate].
        destruct (Get (buf w)) as [[d0 b0]|];
          injection Hstep as <- _; [|discriminate].
        injection He as ->. eauto.
      + destruct (_ =? _); injection Hstep as <- _; discriminate.
    - unfold spurious_notFull in Hstep.
      destruct (prod_at w); try discriminate.
      injection Hstep as <- _. discriminate.
    - unfold spurious_notEmpty in Hstep.
      destruct (cons_at w); try discriminate.
      injection Hstep as <- _. discriminate. }
  destruct (holds_Get _ _ _ _ _ HN (inv_holds _ _ _ HI) HG) as [_ H].
  exact H.
Qed.

(** ** The properties of the specification *)

(** C1 (FIFO order).  In every run, at every moment, the values returned by
    the successive [Get] calls are the first values passed to [Store], in
    the same order; what has been stored and not yet taken is what the
    buffer holds.  Once the consumer has returned (the sentinel being no
    data item) the two sequences are equal, and without the sentinel both
    are the data items.  Every [Get] that completes returns the oldest
    value stored and not yet taken.  And the values are delivered: (with
    at least two slots, initialised primitives and a sentinel that is no
    data item) a state in which no thread can move has the two sequences
    equal, and from every state the threads can go on to such an end,
    where everything stored (what was stored so far included) has been
    taken, in order. *)
Theorem fifo_order env t w :
  0 < BUFFER_SIZE → reaches env t w →
  (∃ held, pushed t = popped t ++ held
           ∧ Z.of_nat (length held) = occupancy (buf w))
  ∧ (no_collision → cons_at w = CDone →
     popped t = pushed t
     ∧ filter (λ d, d ≠ LIMIT) (popped t)
       = filter (λ d, d ≠ LIMIT) (pushed t)
     ∧ filter (λ d, d ≠ LIMIT) (popped t) = seqZ 0 COUNT)
  ∧ (∀ a e w' d, step env a w = Some (e, w') → got e = Some d →
       pushed t !! length (popped t) = Some d
       ∧ popped (t ++ [e]) = popped t ++ [d])
  ∧ (2 ≤ BUFFER_SIZE → no_collision → init_ok env = true →
     ((∀ a, thread a = true → step env a w = None) →
      popped t = pushed t ∧ pushed t = seqZ 0 COUNT ++ [LIMIT])
     ∧ ∃ sched t' w',
         forallb thread sched = true
         ∧ run env sched (t, w) = Some (t', w')
         ∧ (∃ more, t' = t ++ more)
         ∧ cons_at w' = CDone
         ∧ popped t' = pushed t'
         ∧ pushed t' = seqZ 0 COUNT ++ [LIMIT]
         ∧ filter (λ d, d ≠ LIMIT) (popped t') = seqZ 0 COUNT).
Proof.
  intros HN Hr. pose proof (reaches_Inv env t w HN Hr) as HI.
  pose proof (inv_holds _ _ _ HI) as Hh. split_goal.
  - exists (drop (length (popped t)) (pushed t)). split.
    + destruct Hh as (_ & _ & _ & _ & Ht & _).
      rewrite Ht at 1. symmetry. apply take_drop.
    + rewrite (holds_occupancy _ _ _ HN Hh), length_drop.
      destruct Hh as (_ & _ & _ & Hb & _). lia.
  - intros Hnc Hdone. pose proof (inv_cons _ _ _ HI) as Hc.
    rewrite Hdone in Hc. simpl in Hc. destruct Hc as [Hg _].
    assert (LIMIT ∈ popped t) as Hin.
    { rewrite Hg, elem_of_app, list_elem_of_singleton. auto. }
    destruct (sentinel_last env t w Hnc HI Hin) as [Hps Heq].
    split; [exact Heq|]. split; [rewrite Heq; reflexivity|].
    rewrite Heq, Hps. apply data_without_sentinel, Hnc.
  - intros a e w' d Hstep He. split.
    + eapply get_returns_oldest; eassumption.
    + rewrite popped_snoc, He. reflexivity.
  - intros HN2 Hnc Hok. split.
    + intros Hstuck.
      pose proof (stuck_finished env t w HN2 Hnc Hok HI Hstuck) as Hfin.
      destruct (done_histories env t w Hnc HI) as (H1 & H2 & _);
        [apply Hfin|]. auto.
    + destruct (completes env t w HN2 Hnc Hok Hr)
        as (sched & t' & w' & Hall & Hrun & Hmore & Hfin & H1 & H2 & H3).
      exists sched, t', w'. split_goal; try assumption.
      * apply Hfin.
      * rewrite H2, H1. apply data_without_sentinel, Hnc.
Qed.

(** C2 (full/empty invariant, bounded occupancy).  For a structure with
    its positions inside the array: the occupancy [(write - read) mod N]
    lies in [0, N-1]; the test of [Get]'s loop holds iff [read = write] iff
    the occupancy is 0; the test of [Store]'s loop holds iff
    [(write + 1) mod N = read] iff the occupancy is [N-1]; a completed
    [Store] adds one and a completed [Get] removes one, keeping the
    positions inside.  In every reachable state the positions are inside
    and the occupancy is the number of stores minus the number of gets. *)
Theorem occupancy_invariant :
  2 ≤ BUFFER_SIZE →
  (∀ b, buffer_wf b →
     0 ≤ occupancy b ≤ BUFFER_SIZE - 1
     ∧ (empty b = true ↔ read b = write b)
     ∧ (empty b = true ↔ occupancy b = 0)
     ∧ (full b = true ↔ (write b + 1) mod BUFFER_SIZE = read b)
     ∧ (full b = true ↔ occupancy b = BUFFER_SIZE - 1))
  ∧ (∀ b data b', buffer_wf b → Store b data = Some b' →
       buffer_wf b' ∧ occupancy b' = occupancy b + 1
       ∧ occupancy b' ≤ BUFFER_SIZE - 1)
  ∧ (∀ b d b', buffer_wf b → Get b = Some (d, b') →
       buffer_wf b' ∧ occupancy b' = occupancy b - 1 ∧ 0 ≤ occupancy b')
  ∧ (∀ env t w, reaches env t w →
       buffer_wf (buf w)
       ∧ occupancy (buf w)
         = Z.of_nat (length (pushed t)) - Z.of_nat (length (popped t))
       ∧ (length (pushed t) = length (popped t)
          ↔ read (buf w) = write (buf w))
       ∧ (Z.of_nat (length (pushed t))
          = Z.of_nat (length (popped t)) + BUFFER_SIZE - 1
          ↔ (write (buf w) + 1) mod BUFFER_SIZE = read (buf w))).
Proof.
  intros HN. split_goal.
  - intros b Hwf. split_goal.
    + apply occupancy_range. lia.
    + apply occupancy_range. lia.
    + unfold empty. rewrite Z.eqb_eq. split; intros; lia.
    + apply empty_occupancy, Hwf.
    + apply full_rem, Hwf.
    + apply full_occupancy, Hwf.
  - intros b data b' Hwf HS.
    destruct (Store_occupancy b data b' Hwf HS).
    eauto using Store_wf.
  - intros b d b' Hwf HG.
    destruct (Get_occupancy b d b' Hwf HG).
    eauto using Get_wf.
  - intros env t w Hr.
    pose proof (reaches_Inv env t w ltac:(lia) Hr) as HI.
    pose proof (inv_holds _ _ _ HI) as Hh.
    pose proof (holds_wf _ _ _ ltac:(lia) Hh) as Hwf.
    pose proof (holds_empty _ _ _ ltac:(lia) Hh) as He.
    pose proof (holds_full _ _ _ ltac:(lia) Hh) as Hf.
    split_goal.
    + exact Hwf.
    + apply holds_occupancy; [lia|exact Hh].
    + rewrite <- He. unfold empty. rewrite Z.eqb_eq. split; intros; lia.
    + rewrite <- Hf. apply full_rem, Hwf.
Qed.

(** C3 (producer protocol, sentinel exactly once).  The values stored are
    at every moment a beginning of [0, 1, ..., COUNT-1, LIMIT]; the
    sentinel is among them exactly when the producer has returned, and then
    they are the whole sequence, the sentinel (which is none of the data
    items) standing once, at the end, and the producer makes no further
    step; if the sentinel is among the values taken by the consumer, these
    are the whole sequence too, the sentinel last.  The producer does go
    through the sequence: at its loop test with counter [n] it prints [n]
    and enters [Store(&buffer, n)] when [n < COUNT], and enters
    [Store(&buffer, LIMIT)] otherwise; in [Store] it stores its argument
    and goes on, or sleeps when the buffer is full; every value stored is
    stored by the producer and is the next of the sequence; a state in
    which no thread can move has the producer returned with the whole
    sequence stored, and from every state the threads can go on to such an
    end. *)
Theorem producer_protocol env t w :
  0 < BUFFER_SIZE → no_collision → reaches env t w →
  (∃ rest, pushed t ++ rest = seqZ 0 COUNT ++ [LIMIT])
  ∧ ((LIMIT ∈ pushed t) ↔ prod_at w = PDone)
  ∧ (prod_at w = PDone →
     pushed t = seqZ 0 COUNT ++ [LIMIT] ∧ Producer w = None)
  ∧ (LIMIT ∉ seqZ 0 COUNT)
  ∧ (LIMIT ∈ popped t → popped t = seqZ 0 COUNT ++ [LIMIT])
  ∧ (∀ n, prod_at w = PFor n →
       Producer w
       = Some (if n <? COUNT then (EvEmit n, set_prod (PStore (InLoop n)) w)
               else (EvLocal, set_prod (PStore AfterLoop) w)))
  ∧ (init_ok env = true → ∀ s, prod_at w = PStore s →
       Producer w
       = match Store (buf w) (arg s) with
         | Some b' =>
             Some (EvStore (arg s),
                   set_prod (after s)
                     (set_cons (signal_notEmpty (cons_at w)) (set_buf b' w)))
         | None => Some (EvFull, set_prod (PWait s) w)
         end)
  ∧ (∀ a e w' d, step env a w = Some (e, w') → stored e = Some d →
       a = TProducer
       ∧ (seqZ 0 COUNT ++ [LIMIT]) !! length (pushed t) = Some d
       ∧ pushed (t ++ [e]) = pushed t ++ [d])
  ∧ (2 ≤ BUFFER_SIZE → init_ok env = true →
     ((∀ a, thread a = true → step env a w = None) →
      prod_at w = PDone ∧ pushed t = seqZ 0 COUNT ++ [LIMIT])
     ∧ ∃ sched t' w',
         forallb thread sched = true
         ∧ run env sched (t, w) = Some (t', w')
         ∧ (∃ more, t' = t ++ more)
         ∧ prod_at w' = PDone
         ∧ pushed t' = seqZ 0 COUNT ++ [LIMIT]
         ∧ popped t' = pushed t').
Proof.
  intros HN Hnc Hr. pose proof (reaches_Inv env t w HN Hr) as HI.
  pose proof (inv_prod _ _ _ HI) as Hp.
  assert (prod_at w = PDone → pushed t = seqZ 0 COUNT ++ [LIMIT]) as Hdone.
  { intros Hpd. rewrite Hpd in Hp. simpl in Hp.
    rewrite seqZ_quota in Hp. exact Hp. }
  split_goal.
  - eapply prod_inv_prefix, Hp.
  - split.
    + intros Hin. eapply prod_inv_sentinel; eassumption.
    + intros Hpd.
      rewrite (Hdone Hpd), elem_of_app, list_elem_of_singleton. auto.
  - intros Hpd. split; [exact (Hdone Hpd)|].
    unfold Producer. rewrite Hpd. reflexivity.
  - apply sentinel_not_data, Hnc.
  - intros Hin. destruct (sentinel_last env t w Hnc HI Hin) as [Hps Heq].
    congruence.
  - intros n Hn. unfold Producer. rewrite Hn.
    destruct (n <? COUNT); reflexivity.
  - intros Hok s Hs. unfold Producer. rewrite Hs.
    rewrite (started_sync env t w HI), Hok by (left; congruence).
    reflexivity.
  - intros a e w' d Hstep He.
    assert (e = EvStore d) as ->
      by (destruct e; simpl in He; try discriminate; congruence).
    destruct (step_event env a w _ w' Hstep) as [Ha _].
    pose proof (Inv_step env t w a _ w' HN HI Hstep) as HI'.
    destruct (prod_inv_prefix _ _ _ (inv_prod _ _ _ HI')) as [rest Hrest].
    rewrite pushed_snoc in Hrest. simpl in Hrest.
    split_goal.
    + exact Ha.
    + rewrite <- Hrest, <- app_assoc. apply list_lookup_middle. reflexivity.
    + rewrite pushed_snoc. reflexivity.
  - intros HN2 Hok. split.
    + intros Hstuck.
      pose proof (stuck_finished env t w HN2 Hnc Hok HI Hstuck)
        as (_ & Hpd & _).
      auto.
    + destruct (completes env t w HN2 Hnc Hok Hr)
        as (sched & t' & w' & Hall & Hrun & Hmore & Hfin & H1 & H2 & H3).
      exists sched, t', w'. split_goal; try assumption. apply Hfin.
Qed.

(** C4 (consumer protocol).  After a [Get] that returned [d] the consumer
    returns without printing when [d] is the sentinel, and otherwise prints
    [d] and goes back to [Get].  In every run: the sentinel is never
    printed; whenever the consumer is about to call [Get] (or sleeps in it)
    every value taken so far has been printed, in order; the consumer has
    returned only after taking the sentinel, which is then the last value
    taken; and a sentinel among the values taken means the consumer has
    returned or is about to.  The consumer does call [Get] again and again:
    at the head of its loop it calls [Get], which returns the slot at
    [read] or puts it to sleep on an empty buffer; every value taken is
    taken by the consumer at the head of its loop, and every value printed
    is the value just taken, not the sentinel, after which the consumer is
    at the head of its loop again; a state in which no thread can move has
    the consumer returned with all the data items printed, and from every
    state the threads can go on to such an end. *)
Theorem consumer_protocol env t w :
  0 < BUFFER_SIZE → reaches env t w →
  (∀ d, cons_at w = CGot d →
     Consumer w
     = Some (if d =? LIMIT then (EvLocal, set_cons CDone w)
             else (EvShow d, set_cons CGet w))
     ∧ popped t = shown t ++ [d])
  ∧ (cons_at w = CGet ∨ cons_at w = CWait → shown t = popped t)
  ∧ (cons_at w = CDone →
     Consumer w = None ∧ popped t = shown t ++ [LIMIT])
  ∧ (LIMIT ∉ shown t)
  ∧ (LIMIT ∈ popped t → cons_at w = CDone ∨ cons_at w = CGot LIMIT)
  ∧ (init_ok env = true → cons_at w = CGet →
     Consumer w
     = match Get (buf w) with
       | Some (d, b') =>
           Some (EvGet d,
                 set_cons (CGot d)
                   (set_prod (signal_notFull (prod_at w)) (set_buf b' w)))
       | None => Some (EvEmpty, set_cons CWait w)
       end)
  ∧ (∀ a e w' d, step env a w = Some (e, w') → got e = Some d →
       a = TConsumer ∧ cons_at w = CGet ∧ cons_at w' = CGot d
       ∧ Get (buf w) = Some (d, buf w'))
  ∧ (∀ a e w' d, step env a w = Some (e, w') → printed e = Some d →
       a = TConsumer ∧ cons_at w = CGot d ∧ d ≠ LIMIT
       ∧ cons_at w' = CGet ∧ shown (t ++ [e]) = popped t)
  ∧ (2 ≤ BUFFER_SIZE → no_collision → init_ok env = true →
     ((∀ a, thread a = true → step env a w = None) →
      cons_at w = CDone ∧ shown t = seqZ 0 COUNT)
     ∧ ∃ sched t' w',
         forallb thread sched = true
         ∧ run env sched (t, w) = Some (t', w')
         ∧ (∃ more, t' = t ++ more)
         ∧ cons_at w' = CDone
         ∧ popped t' = seqZ 0 COUNT ++ [LIMIT]
         ∧ shown t' = seqZ 0 COUNT).
Proof.
  intros HN Hr. pose proof (reaches_Inv env t w HN Hr) as HI.
  pose proof (inv_cons _ _ _ HI) as Hc.
  split_goal.
  - intros d Hd. unfold Consumer. rewrite Hd in *. simpl in Hc. split.
    + destruct (d =? LIMIT); reflexivity.
    + tauto.
  - intros [Hg|Hg]; rewrite Hg in Hc; simpl in Hc; tauto.
  - intros Hd. unfold Consumer. rewrite Hd in *. simpl in Hc. tauto.
  - eapply shown_clean, HI.
  - intros Hin. destruct (cons_at w) as [| | |d|]; simpl in Hc.
    + destruct Hc as [Hg _]. rewrite Hg in Hin.
      apply elem_of_nil in Hin. contradiction.
    + tauto.
    + tauto.
    + destruct Hc as [Hg Hno]. rewrite Hg in Hin.
      apply elem_of_app in Hin. destruct Hin as [Hin|Hin]; [tauto|].
      apply list_elem_of_singleton in Hin. right. congruence.
    + auto.
  - intros Hok Hg. unfold Consumer. rewrite Hg.
    rewrite (started_sync env t w HI), Hok by (right; congruence).
    destruct (Get (buf w)) as [[d b']|]; reflexivity.
  - intros a e w' d Hstep He.
    assert (e = EvGet d) as ->
      by (destruct e; simpl in He; try discriminate; congruence).
    destruct (step_event env a w _ w' Hstep) as (-> & Hg & Hg').
    split_goal; try assumption; try reflexivity.
    simpl in Hstep. unfold Consumer in Hstep. rewrite Hg in Hstep.
    destruct (sync_ok w); [|discriminate].
    destruct (Get (buf w)) as [[d0 b0]|]; [|discriminate].
    injection Hstep as -> <-. reflexivity.
  - intros a e w' d Hstep He.
    assert (e = EvShow d) as ->
      by (destruct e; simpl in He; try discriminate; congruence).
    destruct (step_event env a w _ w' Hstep) as (-> & Hg & Hne & Hg').
    split_goal; try assumption; try reflexivity.
    rewrite Hg in Hc. simpl in Hc. destruct Hc as [-> _].
    rewrite shown_snoc. reflexivity.
  - intros HN2 Hnc Hok. split.
    + intros Hstuck.
      pose proof (stuck_finished env t w HN2 Hnc Hok HI Hstuck)
        as (_ & _ & Hcd).
      split; [exact Hcd|]. apply (shown_complete env t w Hnc HI Hcd).
    + destruct (completes env t w HN2 Hnc Hok Hr)
        as (sched & t' & w' & Hall & Hrun & Hmore & Hfin & H1 & H2 & H3).
      exists sched, t', w'. split_goal; try assumption.
      * apply Hfin.
      * congruence.
Qed.

(** C5 ([Store]).  With the positions inside the array: the loop test of
    [Store] is [(write + 1) mod N = read]; when it fails, [Store] puts its
    argument in the slot at [write], moves [write] to [(write + 1) mod N]
    and the producer goes on; when it holds, [Store] changes nothing and
    the producer sleeps, unable to move, until a completed [Get] (which
    leaves a free slot) makes it test again.  In every run a sleeping
    producer faces a full buffer. *)
Theorem Store_spec b data :
  buffer_wf b →
  (full b = true ↔ (write b + 1) mod BUFFER_SIZE = read b)
  ∧ (full b = false →
     Store b data
     = Some (Build_prodcons (<[Z.to_nat (write b) := data]> (buffer b))
                            (read b) ((write b + 1) mod BUFFER_SIZE))
     ∧ <[Z.to_nat (write b) := data]> (buffer b) !! Z.to_nat (write b)
       = Some data)
  ∧ (full b = true → Store b data = None)
  ∧ (∀ w s, buf w = b → arg s = data → sync_ok w = true →
       prod_at w = PStore s →
       (full b = false →
        ∃ b', Store b data = Some b'
              ∧ Producer w
                = Some (EvStore data,
                        set_prod (after s)
                          (set_cons (signal_notEmpty (cons_at w))
                             (set_buf b' w))))
       ∧ (full b = true →
          Producer w = Some (EvFull, set_prod (PWait s) w)
          ∧ buf (set_prod (PWait s) w) = b
          ∧ Producer (set_prod (PWait s) w) = None))
  ∧ (∀ w s d b', buf w = b → prod_at w = PWait s → sync_ok w = true →
       cons_at w = CGet → Get b = Some (d, b') →
       ∃ w', Consumer w = Some (EvGet d, w')
             ∧ prod_at w' = PStore s ∧ buf w' = b' ∧ full b' = false)
  ∧ (∀ env t w s, reaches env t w → prod_at w = PWait s →
       full (buf w) = true).
Proof.
  intros Hwf. pose proof Hwf as (Hl & Hr & Hw).
  assert (full b = false →
          Store b data
          = Some (Build_prodcons (<[Z.to_nat (write b) := data]> (buffer b))
                                 (read b) ((write b + 1) mod BUFFER_SIZE)))
    as Hdo.
  { intros Hf. unfold Store. rewrite Hf, advance_small by lia. reflexivity. }
  assert (full b = true → Store b data = None) as Hno.
  { intros Hf. unfold Store. rewrite Hf. reflexivity. }
  split_goal.
  - apply full_rem, Hwf.
  - intros Hf. split; [exact (Hdo Hf)|].
    apply list_lookup_insert_eq. lia.
  - exact Hno.
  - intros w s <- <- Hok Hp. split.
    + intros Hf. eexists. split; [exact (Hdo Hf)|].
      unfold Producer. rewrite Hp, Hok, (Hdo Hf). reflexivity.
    + intros Hf. split_goal.
      * unfold Producer. rewrite Hp, Hok, (Hno Hf). reflexivity.
      * reflexivity.
      * reflexivity.
  - intros w s d b' <- Hp Hok Hc HG.
    eexists. split_goal.
    + unfold Consumer. rewrite Hc, Hok, HG. reflexivity.
    + simpl. rewrite Hp. reflexivity.
    + reflexivity.
    + destruct (Get_occupancy _ _ _ Hwf HG) as [Ho _].
      pose proof (Get_wf _ _ _ Hwf HG) as Hwf'.
      pose proof (occupancy_range (buf w) ltac:(lia)).
      destruct (full b') eqn:Hf; [|reflexivity].
      apply (full_occupancy b' Hwf') in Hf. lia.
  - intros env t w s Hreach Hp.
    pose proof (reaches_Inv env t w ltac:(lia) Hreach) as HI.
    pose proof (inv_prod _ _ _ HI) as Hpi. rewrite Hp in Hpi.
    simpl in Hpi. tauto.
Qed.

(** C6 ([Get]).  With the positions inside the array: the loop test of
    [Get] is [read = write]; when it fails, [Get] returns the value in the
    slot at [read], moves [read] to [(read + 1) mod N] and the consumer
    goes on; when it holds, [Get] changes nothing and the consumer sleeps,
    unable to move, until a completed [Store] (after which the buffer is
    not empty) makes it test again.  In every run a sleeping consumer
    faces an empty buffer. *)
Theorem Get_spec b :
  buffer_wf b →
  (empty b = true ↔ read b = write b)
  ∧ (empty b = false →
     ∃ d, buffer b !! Z.to_nat (read b) = Some d
          ∧ Get b
            = Some (d, Build_prodcons (buffer b)
                         ((read b + 1) mod BUFFER_SIZE) (write b)))
  ∧ (empty b = true → Get b = None)
  ∧ (∀ w, buf w = b → sync_ok w = true → cons_at w = CGet →
       (empty b = false →
        ∃ d b', Get b = Some (d, b')
                ∧ Consumer w
                  = Some (EvGet d,
                          set_cons (CGot d)
                            (set_prod (signal_notFull (prod_at w))
                               (set_buf b' w))))
       ∧ (empty b = true →
          Consumer w = Some (EvEmpty, set_cons CWait w)
          ∧ buf (set_cons CWait w) = b
          ∧ Consumer (set_cons CWait w) = None))
  ∧ (∀ w s b', buf w = b → cons_at w = CWait → sync_ok w = true →
       prod_at w = PStore s → Store b (arg s) = Some b' →
       ∃ w', Producer w = Some (EvStore (arg s), w')
             ∧ cons_at w' = CGet ∧ buf w' = b' ∧ empty b' = false)
  ∧ (∀ env t w, reaches env t w → cons_at w = CWait →
       empty (buf w) = true).
Proof.
  intros Hwf. pose proof Hwf as (Hl & Hr & Hw).
  assert (∃ d, buffer b !! Z.to_nat (read b) = Some d) as [d Hd].
  { apply lookup_lt_is_Some. lia. }
  assert (empty b = false →
          Get b = Some (d, Build_prodcons (buffer b)
                             ((read b + 1) mod BUFFER_SIZE) (write b)))
    as Hdo.
  { intros He. unfold Get. rewrite He, Hd, advance_small by lia.
    reflexivity. }
  assert (empty b = true → Get b = None) as Hno.
  { intros He. unfold Get. rewrite He. reflexivity. }
  split_goal.
  - unfold empty. rewrite Z.eqb_eq. split; intros; lia.
  - intros He. exists d. split; [exact Hd|exact (Hdo He)].
  - exact Hno.
  - intros w <- Hok Hc. split.
    + intros He. do 2 eexists. split; [exact (Hdo He)|].
      unfold Consumer. rewrite Hc, Hok, (Hdo He). reflexivity.
    + intros He. split_goal.
      * unfold Consumer. rewrite Hc, Hok, (Hno He). reflexivity.
      * reflexivity.
      * reflexivity.
  - intros w s b' <- Hc Hok Hp HS.
    eexists. split_goal.
    + unfold Producer. rewrite Hp, Hok, HS. reflexivity.
    + simpl. rewrite Hc. destruct s; reflexivity.
    + destruct s; reflexivity.
    + destruct (Store_occupancy _ _ _ Hwf HS) as [Ho _].
      pose proof (Store_wf _ _ _ Hwf HS) as Hwf'.
      pose proof (occupancy_range (buf w) ltac:(lia)).
      destruct (empty b') eqn:He; [|reflexivity].
      apply (empty_occupancy b' Hwf') in He. lia.
  - intros env t w Hreach Hc.
    pose proof (reaches_Inv env t w ltac:(lia) Hreach) as HI.
    pose proof (inv_cons _ _ _ HI) as Hci. rewrite Hc in Hci.
    simpl in Hci. tauto.
Qed.

(** C10 (frame).  A completed [Store] changes the slot at the old [write]
    and [write], and nothing else: [read], the size of the array and every
    other slot are as before.  A completed [Get] changes [read] only:
    [write] and the whole array are as before.  The same holds for any
    step of the producer and any step of the consumer. *)
Theorem frame_conditions b :
  (∀ data b', Store b data = Some b' →
     read b' = read b ∧ length (buffer b') = length (buffer b)
     ∧ ∀ i, i ≠ Z.to_nat (write b) → buffer b' !! i = buffer b !! i)
  ∧ (∀ d b', Get b = Some (d, b') →
       write b' = write b ∧ buffer b' = buffer b)
  ∧ (∀ w e w', buf w = b → Producer w = Some (e, w') →
       read (buf w') = read b
       ∧ ∀ i, i ≠ Z.to_nat (write b) →
              buffer (buf w') !! i = buffer b !! i)
  ∧ (∀ w e w', buf w = b → Consumer w = Some (e, w') →
       write (buf w') = write b ∧ buffer (buf w') = buffer b).
Proof.
  assert (∀ data b', Store b data = Some b' →
            read b' = read b ∧ length (buffer b') = length (buffer b)
            ∧ ∀ i, i ≠ Z.to_nat (write b) → buffer b' !! i = buffer b !! i)
    as HStore.
  { intros data b' HS. unfold Store in HS.
    destruct (full b); [discriminate|]. injection HS as <-. simpl.
    split_goal.
    - reflexivity.
    - apply length_insert.
    - intros i Hi. apply list_lookup_insert_ne. congruence. }
  assert (∀ d b', Get b = Some (d, b') →
            write b' = write b ∧ buffer b' = buffer b) as HGet.
  { intros d b' HG. unfold Get in HG.
    destruct (empty b); [discriminate|]. injection HG as _ <-. simpl.
    auto. }
  split_goal.
  - exact HStore.
  - exact HGet.
  - intros w e w' <- Hstep. unfold Producer in Hstep.
    destruct (prod_at w) as [|n|s|s|]; try discriminate.
    + destruct (n <? COUNT); injection Hstep as _ <-; auto.
    + destruct (sync_ok w); [|discriminate].
      destruct (Store (buf w) (arg s)) as [b'|] eqn:HS;
        injection Hstep as _ <-; simpl; [|auto].
      destruct (HStore _ _ HS) as (? & _ & ?). auto.
  - intros w e w' <- Hstep. unfold Consumer in Hstep.
    destruct (cons_at w) as [| | |d|]; try discriminate.
    + destruct (sync_ok w); [|discriminate].
      destruct (Get (buf w)) as [[d b']|] eqn:HG;
        injection Hstep as _ <-; simpl; [|auto].
      exact (HGet _ _ eq_refl).
    + destruct (d =? LIMIT); injection Hstep as _ <-; auto.
Qed.

(** C7 (no deadlock, termination).  For a buffer of at least two slots, a
    sentinel that is no data item and initialised primitives, in every
    state a run can reach: either both workers have returned and [main]
    has returned 0, or one of the three threads can move; the run so far
    took at most [12 * max 0 COUNT + 21] steps plus two per spurious
    wake-up; letting the threads move (in some order that the lemma
    exhibits) reaches the end; and at the end nothing moves any more. *)
Theorem pipeline_terminates env t w :
  2 ≤ BUFFER_SIZE → no_collision → init_ok env = true →
  reaches env t w →
  (finished w ∨ ∃ a e w', thread a = true ∧ step env a w = Some (e, w'))
  ∧ Z.of_nat (length t) ≤ budget + 2 * Z.of_nat (wakes t)
  ∧ (∃ sched t' w',
       forallb thread sched = true
       ∧ run env sched (t, w) = Some (t', w') ∧ finished w')
  ∧ (finished w → ∀ a, step env a w = None).
Proof.
  intros HN Hnc Hok Hr.
  pose proof (reaches_Inv env t w ltac:(lia) Hr) as HI.
  split_goal.
  - apply (progress env t w); assumption.
  - pose proof (potential_nonneg _ _ _ HI).
    pose proof (inv_cost _ _ _ HI). lia.
  - pose proof (potential_nonneg _ _ _ HI) as Hpos.
    pose proof (inv_cost _ _ _ HI) as Hcost.
    apply (finishes env HN Hnc Hok
             (Z.to_nat (budget + 2 * Z.of_nat (wakes t)
                        - Z.of_nat (length t))) t w HI).
    lia.
  - intros (Hm & Hp & Hc) a.
    destruct a; simpl;
      unfold main, Producer, Consumer, spurious_notFull, spurious_notEmpty;
      rewrite ?Hm, ?Hp, ?Hc; reflexivity.
Qed.

(** C8, as the code has it.  [init] drops the results of the three
    initialisation calls: whatever they are, it resets both positions and
    returns, and [main] goes on to create the consumer and the producer;
    the outcome only decides whether the primitives are usable. *)
Theorem init_unchecked env :
  (∀ b, init env b = Build_prodcons (buffer b) 0 0)
  ∧ run env [TMain; TMain; TMain] ([], boot)
    = Some ([EvMain; EvMain; EvMain],
            Build_world zeroed (init_ok env) MJoinA (PFor 0) CGet).
Proof. split; reflexivity. Qed.

(** ** Further properties of the code *)

Lemma emitted_snoc t e :
  emitted (t ++ [e])
  = emitted t ++ match emit e with Some d => [d] | None => [] end.
Proof.
  unfold emitted. rewrite omap_app. simpl. destruct (emit e); reflexivity.
Qed.

Lemma emit_step env t w a e w' :
  Inv env t w → emit_inv (emitted t) (prod_at w) →
  step env a w = Some (e, w') →
  emit_inv (emitted (t ++ [e])) (prod_at w').
Proof.
  intros HI He Hstep. rewrite emitted_snoc.
  pose proof (inv_prod _ _ _ HI) as Hp.
  pose proof (inv_main _ _ _ HI) as Hm.
  destruct w as [b ok m p c]. simpl in *.
  destruct a; simpl in Hstep.
  - unfold main, main_inv in *. simpl in *.
    destruct m; split_ands; subst; try discriminate.
    + injection Hstep as <- <-. simpl. rewrite app_nil_r. exact He.
    + injection Hstep as <- <-. simpl. rewrite app_nil_r. exact He.
    + injection Hstep as <- <-. simpl in *. rewrite He. reflexivity.
    + destruct c; try discriminate. injection Hstep as <- <-.
      simpl. rewrite app_nil_r. exact He.
    + destruct p; try discriminate. injection Hstep as <- <-.
      simpl. rewrite app_nil_r. exact He.
    + injection Hstep as <- <-. simpl. rewrite app_nil_r. exact He.
  - unfold Producer in Hstep. simpl in *.
    destruct p as [|n|s|s|]; try discriminate; simpl in *.
    + destruct Hp as [Hn _].
      destruct (Z.ltb_spec n COUNT); injection Hstep as <- <-; simpl.
      * rewrite He. apply seqZ_snoc. lia.
      * rewrite app_nil_r, He. f_equal. unfold quota in *. lia.
    + destruct ok; [|discriminate].
      destruct (Store b (arg s)); injection Hstep as <- <-; simpl;
        rewrite app_nil_r; destruct s; exact He.
  - unfold Consumer in Hstep. simpl in *.
    destruct c as [| | |d|]; try discriminate.
    + destruct ok; [|discriminate].
      destruct (Get b) as [[d b']|]; injection Hstep as <- <-; simpl;
        rewrite app_nil_r; [destruct p|]; exact He.
    + destruct (d =? LIMIT); injection Hstep as <- <-; simpl;
        rewrite app_nil_r; exact He.
  - unfold spurious_notFull in Hstep. simpl in *.
    destruct p; try discriminate. injection Hstep as <- <-. simpl.
    rewrite app_nil_r. exact He.
  - unfold spurious_notEmpty in Hstep. simpl in *.
    destruct c; try discriminate. injection Hstep as <- <-. simpl.
    rewrite app_nil_r. exact He.
Qed.

Lemma reaches_emit env t w :
  0 < BUFFER_SIZE → reaches env t w → emit_inv (emitted t) (prod_at w).
Proof.
  intros HN H. induction H as [|t w a e w' Hr IH Hstep].
  - reflexivity.
  - eapply emit_step; [|exact IH|exact Hstep].
    apply reaches_Inv; assumption.
Qed.

(** The producer's lines and its stores side by side: a line is printed
    before its value is stored, so the lines are at most one ahead. *)
Lemma producer_lines b ps es p :
  prod_inv b ps p → emit_inv es p →
  ∃ n m, 0 ≤ n ≤ m ∧ m ≤ n + 1 ∧ m ≤ quota ∧ es = seqZ 0 m
         ∧ (ps = seqZ 0 n ∨ (m = quota ∧ ps = seqZ 0 quota ++ [LIMIT])).
Proof.
  assert (0 ≤ quota) as Hq by (unfold quota; lia).
  destruct p as [|n|[n|]|[n|]|]; simpl; intros Hp He.
  - exists 0, 0. subst. repeat split; try lia. left. reflexivity.
  - destruct Hp as [Hn Hp]. exists n, n. repeat split; try lia; auto.
  - destruct Hp as [Hn Hp]. exists n, (n + 1).
    unfold quota in *. repeat split; try lia; auto.
  - exists quota, quota. repeat split; try lia; auto.
  - destruct Hp as [[Hn Hp] _]. exists n, (n + 1).
    unfold quota in *. repeat split; try lia; auto.
  - destruct Hp as [Hp _]. exists quota, quota.
    repeat split; try lia; auto.
  - exists quota, quota. repeat split; try lia; auto.
Qed.

(** A completed [Store] found room. *)
Lemma store_needs_room env a w e w' d :
  step env a w = Some (e, w') → stored e = Some d → full (buf w) = false.
Proof.
  intros Hstep He. destruct a; simpl in Hstep.
  - unfold main in Hstep.
    destruct (main_at w), (cons_at w), (prod_at w); try discriminate;
      injection Hstep as <- _; discriminate.
  - unfold Producer in Hstep. destruct (prod_at w); try discriminate.
    + destruct (_ <? _); injection Hstep as <- _; discriminate.
    + destruct (sync_ok w); [|discriminate].
      destruct (Store (buf w) (arg s)) eqn:HS.
      * unfold Store in HS. destruct (full (buf w)); [discriminate|].
        reflexivity.
      * injection Hstep as <- _. discriminate.
  - unfold Consumer in Hstep. destruct (cons_at w); try discriminate.
    + destruct (sync_ok w); [|discriminate].
      destruct (Get _) as [[? ?]|]; injection Hstep as <- _; discriminate.
    + destruct (_ =? _); injection Hstep as <- _; discriminate.
  - unfold spurious_notFull in Hstep. destruct (prod_at w); try discriminate.
    injection Hstep as <- _. discriminate.
  - unfold spurious_notEmpty in Hstep.
    destruct (cons_at w); try discriminate.
    injection Hstep as <- _. discriminate.
Qed.

Lemma Store_all_room ds : ∀ b b1,
  buffer_wf b → Store_all b ds = Some b1 →
  Z.of_nat (length (contents b)) + Z.of_nat (length ds) ≤ BUFFER_SIZE - 1.
Proof.
  induction ds as [|d ds IH]; intros b b1 Hwf HS; simpl in *.
  - rewrite contents_length.
    pose proof (occupancy_range b ltac:(destruct Hwf; lia)). lia.
  - destruct (Store b d) as [b'|] eqn:HS1; [|discriminate].
    pose proof (IH b' b1 (Store_wf _ _ _ Hwf HS1) HS) as Hroom.
    rewrite (contents_Store _ _ _ Hwf HS1), length_app in Hroom.
    simpl in Hroom. lia.
Qed.

(** X1 (a sentinel that is a data item).  When [LIMIT] is one of the data
    items, [0 <= LIMIT < COUNT], the consumer takes the item for the end of
    the stream: what it prints is always a beginning of [0 .. LIMIT-1],
    and exactly that once it has returned, having taken [0 .. LIMIT]; the
    items from [LIMIT] on are never printed.  If at least [BUFFER_SIZE]
    items are left from [LIMIT] on, the producer and the consumer are
    never both returned, and [main] never returns. *)
Theorem colliding_sentinel_truncates env t w :
  0 < BUFFER_SIZE → 0 ≤ LIMIT < COUNT → reaches env t w →
  (∃ rest, shown t ++ rest = seqZ 0 LIMIT)
  ∧ (cons_at w = CDone →
     shown t = seqZ 0 LIMIT ∧ popped t = seqZ 0 (LIMIT + 1))
  ∧ (LIMIT + BUFFER_SIZE ≤ COUNT →
     ¬ (prod_at w = PDone ∧ cons_at w = CDone)
     ∧ ∀ status, main_at w ≠ MExit status).
Proof.
  intros HN HL Hr. pose proof (reaches_Inv env t w HN Hr) as HI.
  destruct (shown_data env t w HI) as [rest Hrest].
  assert (Z.of_nat (length (shown t)) ≤ LIMIT) as Hlen.
  { destruct (Z_le_gt_dec (Z.of_nat (length (shown t))) LIMIT)
      as [Hle|Hgt]; [exact Hle|exfalso].
    apply (shown_clean env t w HI).
    apply (list_elem_of_lookup_2 _ (Z.to_nat LIMIT)).
    rewrite <- (lookup_app_l _ rest) by lia. rewrite Hrest.
    rewrite lookup_seqZ_lt by lia. f_equal. lia. }
  assert (∃ rest', shown t ++ rest' = seqZ 0 LIMIT) as [rest' Hpre].
  { replace COUNT with (LIMIT + (COUNT - LIMIT)) in Hrest by lia.
    rewrite seqZ_app in Hrest by lia.
    apply app_eq_inv in Hrest as [(k & Hk & _)|(k & Hk & _)].
    - exists []. rewrite app_nil_r, Hk.
      apply (f_equal length) in Hk.
      rewrite length_app, length_seqZ in Hk.
      destruct k; [apply app_nil_r|simpl in Hk; lia].
    - exists k. symmetry. exact Hk. }
  assert (cons_at w = CDone →
          shown t = seqZ 0 LIMIT ∧ popped t = seqZ 0 (LIMIT + 1)) as Hdone.
  { intros Hc. pose proof (inv_cons _ _ _ HI) as Hci.
    rewrite Hc in Hci. simpl in Hci. destruct Hci as [Hg _].
    pose proof (inv_holds _ _ _ HI) as (_ & _ & _ & _ & Ht & _).
    destruct (prod_inv_prefix _ _ _ (inv_prod _ _ _ HI)) as [r3 H3].
    rewrite <- (take_drop (length (popped t)) (pushed t)), <- Ht, Hg in H3.
    rewrite <- !app_assoc in H3.
    assert (Z.of_nat (length (shown t)) = LIMIT) as Heq.
    { apply (f_equal (λ l, l !! length (shown t))) in H3.
      cbn [app] in H3.
      rewrite (list_lookup_middle (shown t)) in H3 by reflexivity.
      rewrite lookup_app_l in H3 by (rewrite length_seqZ; lia).
      rewrite lookup_seqZ_lt in H3 by lia.
      injection H3 as H3. lia. }
    assert (shown t = seqZ 0 LIMIT) as Hs.
    { rewrite <- Hpre. apply (f_equal length) in Hpre.
      rewrite length_app, length_seqZ in Hpre.
      destruct rest'; [symmetry; apply app_nil_r|simpl in Hpre; lia]. }
    split; [exact Hs|]. rewrite Hg, Hs. apply seqZ_snoc. lia. }
  split_goal.
  - eauto.
  - exact Hdone.
  - intros Hleft.
    assert (¬ (prod_at w = PDone ∧ cons_at w = CDone)) as Hnever.
    { intros [Hp Hc]. destruct (Hdone Hc) as [_ Hg].
      pose proof (inv_prod _ _ _ HI) as Hpi. rewrite Hp in Hpi.
      simpl in Hpi.
      pose proof (inv_holds _ _ _ HI) as (_ & _ & _ & Hb & _).
      rewrite Hg, Hpi, length_app, !length_seqZ in Hb. simpl in Hb.
      unfold quota in Hb. lia. }
    split; [exact Hnever|].
    intros status Hm. apply Hnever.
    pose proof (inv_main _ _ _ HI) as Hmi. unfold main_inv in Hmi.
    rewrite Hm in Hmi. tauto.
Qed.

(** X2 (the producer's lines).  The lines ["n --->"] printed by the
    producer are always a beginning of [0 .. COUNT-1], and all of them once
    the producer has returned; the consumer's lines are always a beginning
    of the producer's, so no value is shown as consumed before it was
    shown as produced; and every stored data item was printed by the
    producer first. *)
Theorem producer_output env t w :
  0 < BUFFER_SIZE → reaches env t w →
  (∃ rest, emitted t ++ rest = seqZ 0 COUNT)
  ∧ (prod_at w = PDone → emitted t = seqZ 0 COUNT)
  ∧ (∃ ahead, emitted t = shown t ++ ahead)
  ∧ (∀ i d, pushed t !! i = Some d →
       emitted t !! i = Some d
       ∨ (d = LIMIT ∧ Z.of_nat i = Z.max 0 COUNT)).
Proof.
  intros HN Hr. pose proof (reaches_Inv env t w HN Hr) as HI.
  pose proof (reaches_emit env t w HN Hr) as He.
  destruct (producer_lines _ _ _ _ (inv_prod _ _ _ HI) He)
    as (n & m & Hnm & Hm1 & Hmq & Hes & Hps).
  split_goal.
  - exists (seqZ m (quota - m)). rewrite Hes, <- seqZ_quota.
    replace quota with (m + (quota - m)) at 2 by lia.
    rewrite seqZ_app by lia. reflexivity.
  - intros Hp. rewrite Hp in He. simpl in He.
    rewrite He. apply seqZ_quota.
  - destruct (shown_prefix env t w HI) as [r1 H1].
    pose proof (inv_holds _ _ _ HI) as (_ & _ & _ & _ & Ht & _).
    assert (∃ R, shown t ++ R = pushed t) as [R HR].
    { exists (r1 ++ drop (length (popped t)) (pushed t)).
      rewrite app_assoc, H1. rewrite Ht at 1. apply take_drop. }
    destruct Hps as [Hps|[-> Hps]].
    + exists (R ++ seqZ n (m - n)). rewrite app_assoc, HR, Hps, Hes.
      replace m with (n + (m - n)) at 1 by lia.
      rewrite seqZ_app by lia. reflexivity.
    + rewrite Hps in HR. destruct R as [|x R] using rev_ind.
      * exfalso. apply (shown_clean env t w HI).
        rewrite app_nil_r in HR.
        rewrite HR, elem_of_app, list_elem_of_singleton. auto.
      * rewrite app_assoc in HR. apply app_inj_tail in HR as [HR _].
        exists R. rewrite Hes. symmetry. exact HR.
  - intros i d Hi. rewrite Hes. destruct Hps as [Hps|[-> Hps]].
    + left. rewrite Hps in Hi. apply lookup_seqZ in Hi as [-> Hi].
      apply lookup_seqZ. lia.
    + rewrite Hps in Hi. apply lookup_app_Some in Hi as [Hi|[Hlen Hi]].
      * left. exact Hi.
      * right. rewrite length_seqZ in Hlen, Hi.
        apply list_lookup_singleton_Some in Hi as [Hi ->].
        split; [reflexivity|]. unfold quota in *. lia.
Qed.

(** X3 (life cycle of [main]).  Before [main] has created the consumer
    neither worker exists and nothing has been stored, taken or printed;
    the producer never exists without the consumer; [main] gets past its
    two joins (to destroy the primitives and return) only when both
    workers have returned, and the only status it returns is 0; at that
    point, the sentinel being no data item, everything stored has been
    taken and the buffer is empty. *)
Theorem main_lifecycle env t w :
  0 < BUFFER_SIZE → reaches env t w →
  (main_at w = MInit ∨ main_at w = MCreateA →
   prod_at w = PIdle ∧ cons_at w = CIdle
   ∧ pushed t = [] ∧ popped t = [] ∧ shown t = [])
  ∧ (prod_at w ≠ PIdle → cons_at w ≠ CIdle)
  ∧ (main_at w = MDestroy ∨ (∃ status, main_at w = MExit status) →
     prod_at w = PDone ∧ cons_at w = CDone
     ∧ (no_collision →
        popped t = pushed t ∧ empty (buf w) = true
        ∧ read (buf w) = write (buf w)))
  ∧ (∀ status, main_at w = MExit status → status = 0).
Proof.
  intros HN Hr. pose proof (reaches_Inv env t w HN Hr) as HI.
  pose proof (inv_main _ _ _ HI) as Hm. unfold main_inv in Hm.
  pose proof (inv_prod _ _ _ HI) as Hp.
  pose proof (inv_cons _ _ _ HI) as Hc.
  split_goal.
  - intros Hearly.
    assert (prod_at w = PIdle ∧ cons_at w = CIdle) as [Hpi Hci]
      by (destruct Hearly as [He|He]; rewrite He in Hm; tauto).
    rewrite Hpi in Hp. rewrite Hci in Hc. simpl in Hp, Hc. tauto.
  - destruct (main_at w); split_ands; congruence.
  - intros Hlate.
    assert (prod_at w = PDone ∧ cons_at w = CDone) as [Hpd Hcd]
      by (destruct Hlate as [He|[st He]]; rewrite He in Hm; tauto).
    split; [exact Hpd|]. split; [exact Hcd|]. intros Hnc.
    rewrite Hcd in Hc. simpl in Hc. destruct Hc as [Hg _].
    assert (LIMIT ∈ popped t) as Hin.
    { rewrite Hg, elem_of_app, list_elem_of_singleton. auto. }
    destruct (sentinel_last env t w Hnc HI Hin) as [_ Heq].
    assert (empty (buf w) = true) as Hempty.
    { apply (holds_empty _ _ _ HN (inv_holds _ _ _ HI)). congruence. }
    split; [exact Heq|]. split; [exact Hempty|].
    unfold empty in Hempty. apply Z.eqb_eq in Hempty. lia.
  - intros status Hst. rewrite Hst in Hm. tauto.
Qed.

(** X4 (spurious wake-ups).  In a run with initialised primitives, waking
    a sleeper without a signal changes neither the structure nor what was
    stored, taken or printed; and if the woken thread is the next to move,
    it finds its loop test still true and goes back to sleep in exactly
    the state it was woken from. *)
Theorem spurious_wakeup_harmless env t w :
  0 < BUFFER_SIZE → init_ok env = true → reaches env t w →
  (∀ e w1, spurious_notFull w = Some (e, w1) →
     buf w1 = buf w ∧ pushed (t ++ [e]) = pushed t
     ∧ popped (t ++ [e]) = popped t ∧ shown (t ++ [e]) = shown t
     ∧ Producer w1 = Some (EvFull, w))
  ∧ (∀ e w1, spurious_notEmpty w = Some (e, w1) →
       buf w1 = buf w ∧ pushed (t ++ [e]) = pushed t
       ∧ popped (t ++ [e]) = popped t ∧ shown (t ++ [e]) = shown t
       ∧ Consumer w1 = Some (EvEmpty, w)).
Proof.
  intros HN Hok Hr. pose proof (reaches_Inv env t w HN Hr) as HI.
  pose proof (inv_main _ _ _ HI) as Hm. unfold main_inv in Hm.
  pose proof (inv_prod _ _ _ HI) as Hp.
  pose proof (inv_cons _ _ _ HI) as Hc.
  destruct w as [b ok m p c]. simpl in *. split.
  - intros e w1 Hstep. unfold spurious_notFull in Hstep. simpl in Hstep.
    destruct p as [| | |s|]; try discriminate.
    injection Hstep as <- <-. simpl in Hp. destruct Hp as [_ Hf].
    assert (ok = true) as -> by (destruct m; split_ands; congruence).
    snoc. split_goal; try reflexivity.
    unfold Producer, Store. simpl. rewrite Hf. reflexivity.
  - intros e w1 Hstep. unfold spurious_notEmpty in Hstep. simpl in Hstep.
    destruct c as [| | | |]; try discriminate.
    injection Hstep as <- <-. simpl in Hc. destruct Hc as [_ He].
    assert (ok = true) as -> by (destruct m; split_ands; congruence).
    snoc. split_goal; try reflexivity.
    unfold Consumer, Get. simpl. rewrite He. reflexivity.
Qed.

(** X5 (one slot).  With [BUFFER_SIZE = 1] the test of [Store]'s loop
    always holds: in every run nothing is ever stored, taken or printed,
    neither the producer nor the consumer ever returns, and [main] never
    gets past its first join: it never destroys the primitives and never
    returns. *)
Theorem capacity_one_delivers_nothing env t w :
  BUFFER_SIZE = 1 → reaches env t w →
  full (buf w) = true
  ∧ pushed t = [] ∧ popped t = [] ∧ shown t = []
  ∧ prod_at w ≠ PDone ∧ ¬ finished w
  ∧ cons_at w ≠ CDone
  ∧ main_at w ≠ MJoinB ∧ main_at w ≠ MDestroy
  ∧ (∀ status, main_at w ≠ MExit status).
Proof.
  intros HN Hr.
  assert (∀ t w, reaches env t w → full (buf w) = true) as Hfull.
  { intros t0 w0 Hr0.
    pose proof (reaches_Inv env t0 w0 ltac:(lia) Hr0) as HI.
    pose proof (inv_holds _ _ _ HI) as Hh.
    apply (holds_full _ _ _ ltac:(lia) Hh).
    destruct Hh as (_ & _ & _ & Hb & _). lia. }
  assert (∀ t w, reaches env t w → pushed t = []) as Hnone.
  { intros t0 w0 Hr0. induction Hr0 as [|t0 w0 a e w' Hr0 IH Hstep].
    - reflexivity.
    - rewrite pushed_snoc, IH. destruct (stored e) as [d|] eqn:He.
      + pose proof (store_needs_room _ _ _ _ _ _ Hstep He) as Hroom.
        rewrite (Hfull t0 w0 Hr0) in Hroom. discriminate.
      + reflexivity. }
  pose proof (Hnone t w Hr) as Hps.
  pose proof (reaches_Inv env t w ltac:(lia) Hr) as HI.
  assert (popped t = []) as Hg.
  { pose proof (inv_holds _ _ _ HI) as (_ & _ & _ & _ & Ht & _).
    rewrite Hps in Ht. rewrite Ht. apply take_nil. }
  assert (prod_at w ≠ PDone) as Hp.
  { intros Hp. pose proof (inv_prod _ _ _ HI) as Hpi.
    rewrite Hp, Hps in Hpi. simpl in Hpi.
    symmetry in Hpi. apply app_eq_nil in Hpi as [_ Hpi]. discriminate. }
  split_goal.
  - exact (Hfull t w Hr).
  - exact Hps.
  - exact Hg.
  - destruct (shown_prefix env t w HI) as [r Hs]. rewrite Hg in Hs.
    apply app_eq_nil in Hs as [Hs _]. exact Hs.
  - exact Hp.
  - intros (_ & Hpd & _). exact (Hp Hpd).
  - intros Hcd. pose proof (inv_cons _ _ _ HI) as Hci.
    rewrite Hcd, Hg in Hci. simpl in Hci. destruct Hci as [Hci _].
    symmetry in Hci. apply app_eq_nil in Hci as [_ Hci]. discriminate.
  - intros Hm. pose proof (inv_main _ _ _ HI) as Hmi.
    unfold main_inv in Hmi. rewrite Hm in Hmi.
    pose proof (inv_cons _ _ _ HI) as Hci.
    destruct Hmi as (_ & _ & Hcd). rewrite Hcd, Hg in Hci. simpl in Hci.
    destruct Hci as [Hci _].
    symmetry in Hci. apply app_eq_nil in Hci as [_ Hci]. discriminate.
  - intros Hm. pose proof (inv_main _ _ _ HI) as Hmi.
    unfold main_inv in Hmi. rewrite Hm in Hmi. apply Hp. tauto.
  - intros status Hm. pose proof (inv_main _ _ _ HI) as Hmi.
    unfold main_inv in Hmi. rewrite Hm in Hmi. apply Hp. tauto.
Qed.

(** X6 (the buffer is a queue).  For a structure with its positions inside
    the array, [contents] (the slots from [read] on, as many as the
    occupancy) behaves as a queue of at most [BUFFER_SIZE - 1] items:
    [Store] sleeps exactly when it is that long and otherwise appends its
    argument; [Get] sleeps exactly when it is empty and otherwise returns
    and removes its first item; [init] empties it. *)
Theorem buffer_is_queue env b :
  buffer_wf b →
  Z.of_nat (length (contents b)) = occupancy b
  ∧ Z.of_nat (length (contents b)) ≤ BUFFER_SIZE - 1
  ∧ (∀ data,
       (Store b data = None
        ↔ Z.of_nat (length (contents b)) = BUFFER_SIZE - 1)
       ∧ ∀ b', Store b data = Some b' →
               buffer_wf b' ∧ contents b' = contents b ++ [data])
  ∧ (Get b = None ↔ contents b = [])
  ∧ (∀ d b', Get b = Some (d, b') →
       buffer_wf b' ∧ contents b = d :: contents b')
  ∧ contents (init env b) = [].
Proof.
  intros Hwf. pose proof Hwf as (Hl & Hr & Hw).
  pose proof (occupancy_range b ltac:(lia)) as Hrange.
  pose proof (contents_length b) as Hlen.
  split_goal.
  - lia.
  - lia.
  - intros data. split.
    + rewrite <- (contents_full b Hwf). unfold Store.
      destruct (full b); split; intros; congruence.
    + intros b' HS. split; [eapply Store_wf|eapply contents_Store];
        eassumption.
  - rewrite <- (contents_empty b Hwf). unfold Get.
    destruct (empty b); split; intros; congruence.
  - intros d b' HG. split; [eapply Get_wf|eapply contents_Get];
      eassumption.
  - reflexivity.
Qed.

(** X7 (stores, then gets).  Starting from an empty structure with its
    positions inside the array, a thread can store any list of at most
    [BUFFER_SIZE - 1] values without sleeping and then get back exactly
    that list, in order, leaving the structure empty again; with a longer
    list one of the [Store] calls finds the buffer full. *)
Theorem stores_then_gets b ds :
  buffer_wf b → empty b = true →
  (Z.of_nat (length ds) ≤ BUFFER_SIZE - 1 →
   ∃ b1 b2, Store_all b ds = Some b1 ∧ contents b1 = ds
            ∧ Get_n b1 (length ds) = Some (ds, b2)
            ∧ empty b2 = true)
  ∧ (BUFFER_SIZE - 1 < Z.of_nat (length ds) → Store_all b ds = None).
Proof.
  intros Hwf He. apply (contents_empty b Hwf) in He. split.
  - intros Hlen.
    destruct (Store_all_contents ds b Hwf) as (b1 & H1 & Hwf1 & Hc1).
    { rewrite He. simpl. lia. }
    rewrite He in Hc1. simpl in Hc1.
    destruct (Get_n_contents ds b1 [] Hwf1) as (b2 & H2 & Hwf2 & Hc2).
    { rewrite app_nil_r. exact Hc1. }
    exists b1, b2. split_goal; try assumption.
    apply (contents_empty b2 Hwf2). exact Hc2.
  - intros Hlen. destruct (Store_all b ds) as [b1|] eqn:HS; [|reflexivity].
    pose proof (Store_all_room ds b b1 Hwf HS) as Hroom.
    rewrite He in Hroom. simpl in Hroom. lia.
Qed.

(** X8 (a roomy buffer).  When the buffer has room for every value the
    producer sends, [COUNT + 1 <= BUFFER_SIZE - 1], the producer never
    sleeps: [Store] never finds the buffer full. *)
Theorem roomy_buffer_never_blocks env t w :
  Z.max 0 COUNT + 2 ≤ BUFFER_SIZE → reaches env t w →
  (∀ s, prod_at w ≠ PWait s)
  ∧ (∀ s, prod_at w = PStore s → full (buf w) = false).
Proof.
  intros HN Hr. pose proof (reaches_Inv env t w ltac:(lia) Hr) as HI.
  pose proof (inv_holds _ _ _ HI) as Hh.
  pose proof (inv_prod _ _ _ HI) as Hp.
  pose proof (holds_full _ _ _ ltac:(lia) Hh) as Hf.
  assert (∀ s, site_inv (pushed t) s → full (buf w) = false) as Hsite.
  { intros s Hs. destruct (full (buf w)) eqn:Hfull; [|reflexivity].
    exfalso. destruct Hf as [Hf _]. specialize (Hf eq_refl).
    destruct s as [n|]; simpl in Hs.
    - destruct Hs as [Hn Hs]. rewrite Hs, length_seqZ in Hf. lia.
    - rewrite Hs, length_seqZ in Hf. unfold quota in Hf. lia. }
  split.
  - intros s Hs. rewrite Hs in Hp. simpl in Hp. destruct Hp as [Hp Hfull].
    rewrite (Hsite s Hp) in Hfull. discriminate.
  - intros s Hs. rewrite Hs in Hp. simpl in Hp. exact (Hsite s Hp).
Qed.

(** X9 (nothing to send).  With [COUNT <= 0] the loop of the producer is
    not entered: neither thread ever prints anything, and the only value
    ever stored is the sentinel. *)
Theorem no_items_no_output env t w :
  0 < BUFFER_SIZE → COUNT ≤ 0 → reaches env t w →
  emitted t = [] ∧ shown t = []
  ∧ (pushed t = [] ∨ pushed t = [LIMIT])
  ∧ (prod_at w = PDone → pushed t = [LIMIT]).
Proof.
  intros HN HC Hr. pose proof (reaches_Inv env t w HN Hr) as HI.
  pose proof (reaches_emit env t w HN Hr) as He.
  pose proof (inv_prod _ _ _ HI) as Hp.
  destruct (producer_lines _ _ _ _ Hp He)
    as (n & m & Hnm & Hm1 & Hmq & Hes & Hps).
  assert (quota = 0) as Hq by (unfold quota; lia).
  split_goal.
  - rewrite Hes. apply seqZ_nil. lia.
  - destruct (shown_data env t w HI) as [rest Hs].
    rewrite seqZ_nil in Hs by lia.
    apply app_eq_nil in Hs as [Hs _]. exact Hs.
  - destruct Hps as [Hps|[_ Hps]].
    + left. rewrite Hps. apply seqZ_nil. lia.
    + right. rewrite Hps, Hq. reflexivity.
  - intros Hpd. rewrite Hpd in Hp. simpl in Hp. rewrite Hp, Hq.
    reflexivity.
Qed.

End ProdCons.

(** ** The program as configured: [BUFFER_SIZE = 4], [LIMIT = -1],
    [COUNT = 11] *)



(** With the sentinel of the source, [-1], no [COUNT] makes a data item
    collide with it. *)
Lemma source_sentinel_free COUNT : no_collision (-1) COUNT.
Proof. left. reflexivity. Qed.


(** C8, as stated, fails: with a failing [pthread_mutex_init] the three
    first steps of [main] still create both threads. *)
Lemma failed_init_still_spawns :
  init_ok Sample.env_mutex_fails = false
  ∧ run Configured.BUFFER_SIZE Configured.LIMIT Configured.COUNT
      Sample.env_mutex_fails [TMain; TMain; TMain]
      ([], boot Configured.BUFFER_SIZE)
    = Some ([EvMain; EvMain; EvMain],
            Build_world (Build_prodcons [0; 0; 0; 0] 0 0) false MJoinA
                        (PFor 0) CGet)
  ∧ ¬ (∀ t w,
         reaches Configured.BUFFER_SIZE Configured.LIMIT Configured.COUNT
           Sample.env_mutex_fails t w →
         prod_at w = PIdle ∧ cons_at w = CIdle).
Proof.
  split; [reflexivity|]. split; [reflexivity|].
  intros Hclaim.
  destruct (Hclaim [EvMain; EvMain; EvMain]
              (Build_world (Build_prodcons [0; 0; 0; 0] 0 0) false MJoinA
                           (PFor 0) CGet)) as [Hp _].
  - apply run_boot with (sched := [TMain; TMain; TMain]). reflexivity.
  - discriminate Hp.
Qed.

(** ** The theorems at work on sample data *)

Example eager_run :
  eager Configured.BUFFER_SIZE Configured.LIMIT Configured.COUNT
    Sample.env_ok 100 (boot Configured.BUFFER_SIZE) = Sample.full_sched
  ∧ run Configured.BUFFER_SIZE Configured.LIMIT Configured.COUNT
      Sample.env_ok Sample.full_sched ([], boot Configured.BUFFER_SIZE)
    = Some (Sample.final_trace, Sample.final_state).
Proof. split; vm_compute; reflexivity. Qed.

Lemma fifo_order_sample :
  (∃ held, pushed Sample.trace = popped Sample.trace ++ held
           ∧ Z.of_nat (length held)
             = occupancy Configured.BUFFER_SIZE (buf Sample.state))
  ∧ popped Sample.final_trace = pushed Sample.final_trace
  ∧ filter (λ d, d ≠ Configured.LIMIT) (popped Sample.final_trace)
    = seqZ 0 Configured.COUNT
  ∧ ∃ sched t' w',
      run Configured.BUFFER_SIZE Configured.LIMIT Configured.COUNT
        Sample.env_ok sched (Sample.trace, Sample.state) = Some (t', w')
      ∧ (∃ more, t' = Sample.trace ++ more)
      ∧ cons_at w' = CDone
      ∧ popped t' = pushed t'.
Proof.
  destruct (fifo_order Configured.BUFFER_SIZE Configured.LIMIT
              Configured.COUNT Sample.env_ok Sample.trace Sample.state)
    as (Hheld & _ & _ & Hlive).
  - reflexivity.
  - apply run_boot with (sched := Sample.sched). reflexivity.
  - destruct (fifo_order Configured.BUFFER_SIZE Configured.LIMIT
                Configured.COUNT Sample.env_ok Sample.final_trace
                Sample.final_state) as (_ & Hdone & _).
    + reflexivity.
    + apply run_boot with (sched := Sample.full_sched). reflexivity.
    + destruct Hdone as (H1 & _ & H3).
      * left. reflexivity.
      * reflexivity.
      * destruct Hlive
          as (_ & sched & t' & w' & _ & Hrun & Hmore & Hcd & Heq & _).
        -- unfold Configured.BUFFER_SIZE. lia.
        -- left. reflexivity.
        -- reflexivity.
        -- split_goal; try assumption.
           exists sched, t', w'. split_goal; assumption.
Defined.

Lemma occupancy_invariant_sample :
  occupancy Configured.BUFFER_SIZE (buf Sample.state)
  = Z.of_nat (length (pushed Sample.trace))
    - Z.of_nat (length (popped Sample.trace))
  ∧ (full Configured.BUFFER_SIZE Sample.full_buffer = true
     ↔ occupancy Configured.BUFFER_SIZE Sample.full_buffer
       = Configured.BUFFER_SIZE - 1).
Proof.
  destruct (occupancy_invariant Configured.BUFFER_SIZE Configured.LIMIT
              Configured.COUNT) as (Hb & _ & _ & Hr).
  - unfold Configured.BUFFER_SIZE. lia.
  - split.
    + destruct (Hr Sample.env_ok Sample.trace Sample.state) as (_ & H & _).
      * apply run_boot with (sched := Sample.sched). reflexivity.
      * exact H.
    + destruct (Hb Sample.full_buffer) as (_ & _ & _ & _ & H).
      * vm_compute. intuition discriminate.
      * exact H.
Defined.

Lemma producer_protocol_sample :
  pushed Sample.final_trace = seqZ 0 Configured.COUNT ++ [Configured.LIMIT]
  ∧ Producer Configured.BUFFER_SIZE Configured.LIMIT Configured.COUNT
      Sample.final_state = None
  ∧ Producer Configured.BUFFER_SIZE Configured.LIMIT Configured.COUNT
      Sample.asleep
    = Some (EvStore 3,
            Build_world (Build_prodcons [0; 1; 2; 3] 3 0) true MJoinA
                        (PFor 4) CGet)
  ∧ ∃ sched t' w',
      run Configured.BUFFER_SIZE Configured.LIMIT Configured.COUNT
        Sample.env_ok sched (Sample.asleep_trace, Sample.asleep)
      = Some (t', w')
      ∧ prod_at w' = PDone
      ∧ pushed t' = seqZ 0 Configured.COUNT ++ [Configured.LIMIT].
Proof.
  destruct (producer_protocol Configured.BUFFER_SIZE Configured.LIMIT
              Configured.COUNT Sample.env_ok Sample.final_trace
              Sample.final_state) as (_ & _ & H & _).
  - reflexivity.
  - left. reflexivity.
  - apply run_boot with (sched := Sample.full_sched). reflexivity.
  - destruct (producer_protocol Configured.BUFFER_SIZE Configured.LIMIT
                Configured.COUNT Sample.env_ok Sample.asleep_trace
                Sample.asleep)
      as (_ & _ & _ & _ & _ & _ & Hstore & _ & Hlive).
    + reflexivity.
    + left. reflexivity.
    + apply run_boot with (sched := Sample.asleep_sched). reflexivity.
    + destruct (H eq_refl) as [H1 H2].
      destruct Hlive
        as (_ & sched & t' & w' & _ & Hrun & _ & Hpd & Hps & _).
      * unfold Configured.BUFFER_SIZE. lia.
      * reflexivity.
      * split_goal; try assumption.
        -- apply (Hstore eq_refl (InLoop 3)). reflexivity.
        -- exists sched, t', w'. split_goal; assumption.
Defined.

Lemma consumer_protocol_sample :
  Consumer Configured.BUFFER_SIZE Configured.LIMIT Sample.state
  = Some (EvShow 3, set_cons CGet Sample.state)
  ∧ popped Sample.trace = shown Sample.trace ++ [3]
  ∧ Consumer Configured.BUFFER_SIZE Configured.LIMIT Sample.blocked
    = Some (EvGet 0,
            Build_world (Build_prodcons [0; 1; 2; 0] 1 3) true MJoinA
                        (PStore (InLoop 3)) (CGot 0))
  ∧ ∃ sched t' w',
      run Configured.BUFFER_SIZE Configured.LIMIT Configured.COUNT
        Sample.env_ok sched (Sample.trace, Sample.state) = Some (t', w')
      ∧ cons_at w' = CDone
      ∧ shown t' = seqZ 0 Configured.COUNT.
Proof.
  destruct (consumer_protocol Configured.BUFFER_SIZE Configured.LIMIT
              Configured.COUNT Sample.env_ok Sample.trace Sample.state)
    as (H & _ & _ & _ & _ & _ & _ & _ & Hlive).
  - reflexivity.
  - apply run_boot with (sched := Sample.sched). reflexivity.
  - destruct (consumer_protocol Configured.BUFFER_SIZE Configured.LIMIT
                Configured.COUNT Sample.env_ok Sample.blocked_trace
                Sample.blocked)
      as (_ & _ & _ & _ & _ & Hget & _).
    + reflexivity.
    + apply run_boot with (sched := Sample.blocked_sched). reflexivity.
    + destruct (H 3 eq_refl) as [H1 H2].
      destruct Hlive
        as (_ & sched & t' & w' & _ & Hrun & _ & Hcd & _ & Hs).
      * unfold Configured.BUFFER_SIZE. lia.
      * left. reflexivity.
      * reflexivity.
      * split_goal; try assumption.
        -- apply (Hget eq_refl eq_refl).
        -- exists sched, t', w'. split_goal; assumption.
Defined.

Lemma Store_spec_sample :
  Store Configured.BUFFER_SIZE Sample.half_buffer 8
  = Some (Build_prodcons [5; 6; 7; 8] 1 0)
  ∧ Store Configured.BUFFER_SIZE Sample.full_buffer 8 = None.
Proof.
  split.
  - destruct (Store_spec Configured.BUFFER_SIZE Configured.LIMIT
                Configured.COUNT Sample.half_buffer 8) as (_ & H & _).
    + vm_compute. intuition discriminate.
    + apply H. reflexivity.
  - destruct (Store_spec Configured.BUFFER_SIZE Configured.LIMIT
                Configured.COUNT Sample.full_buffer 8) as (_ & _ & H & _).
    + vm_compute. intuition discriminate.
    + apply H. reflexivity.
Defined.

Lemma Get_spec_sample :
  (∃ d, buffer Sample.half_buffer !! Z.to_nat (read Sample.half_buffer)
        = Some d
        ∧ Get Configured.BUFFER_SIZE Sample.half_buffer
          = Some (d, Build_prodcons [5; 6; 7; 0] 2 3))
  ∧ Get Configured.BUFFER_SIZE Sample.empty_buffer = None.
Proof.
  split.
  - destruct (Get_spec Configured.BUFFER_SIZE Configured.LIMIT
                Configured.COUNT Sample.half_buffer) as (_ & H & _).
    + vm_compute. intuition discriminate.
    + apply H. reflexivity.
  - destruct (Get_spec Configured.BUFFER_SIZE Configured.LIMIT
                Configured.COUNT Sample.empty_buffer) as (_ & _ & H & _).
    + vm_compute. intuition discriminate.
    + apply H. reflexivity.
Defined.

Lemma pipeline_terminates_sample :
  Z.of_nat (length Sample.trace)
  ≤ budget Configured.COUNT + 2 * Z.of_nat (wakes Sample.trace)
  ∧ ∃ sched t' w',
      forallb thread sched = true
      ∧ run Configured.BUFFER_SIZE Configured.LIMIT Configured.COUNT
          Sample.env_ok sched (Sample.trace, Sample.state) = Some (t', w')
      ∧ finished w'.
Proof.
  destruct (pipeline_terminates Configured.BUFFER_SIZE Configured.LIMIT
              Configured.COUNT Sample.env_ok Sample.trace Sample.state)
    as (_ & Hbound & Hend & _).
  - unfold Configured.BUFFER_SIZE. lia.
  - left. reflexivity.
  - reflexivity.
  - apply run_boot with (sched := Sample.sched). reflexivity.
  - split; assumption.
Defined.


Lemma frame_conditions_sample :
  (∀ b', Store Configured.BUFFER_SIZE Sample.half_buffer 8 = Some b' →
     read b' = 1 ∧ buffer b' !! 0%nat = Some 5)
  ∧ (∀ e w', Consumer Configured.BUFFER_SIZE Configured.LIMIT
               Sample.getting = Some (e, w') →
       write (buf w') = 3 ∧ buffer (buf w') = [5; 6; 7; 0]).
Proof.
  destruct (frame_conditions Configured.BUFFER_SIZE Configured.LIMIT
              Configured.COUNT Sample.half_buffer) as (HS & _ & _ & HC).
  split.
  - intros b' Hb'. destruct (HS 8 b' Hb') as (Hr & _ & Hi).
    split; [exact Hr|]. apply (Hi 0%nat). discriminate.
  - intros e w' Hstep. apply (HC Sample.getting e w'); [reflexivity|].
    exact Hstep.
Defined.

(** The precondition on the sentinel is needed: were [LIMIT] the data item
    3 (with [BUFFER_SIZE = 4], [COUNT = 11]), the run in which every thread
    moves as soon as it can ends with the consumer returned after printing
    0, 1, 2, the producer asleep in [Store(&buffer, 7)] on a full buffer,
    and [main] waiting for it: no thread can move any more. *)
Lemma colliding_sentinel_stalls :
  (∃ t,
     run Configured.BUFFER_SIZE Sample.colliding_LIMIT Configured.COUNT
       Sample.env_ok
       (eager Configured.BUFFER_SIZE Sample.colliding_LIMIT Configured.COUNT
          Sample.env_ok 100 (boot Configured.BUFFER_SIZE))
       ([], boot Configured.BUFFER_SIZE)
     = Some (t, Sample.stalled)
     ∧ shown t = [0; 1; 2])
  ∧ full Configured.BUFFER_SIZE (buf Sample.stalled) = true
  ∧ ∀ a, thread a = true →
         step Configured.BUFFER_SIZE Sample.colliding_LIMIT Configured.COUNT
           Sample.env_ok a Sample.stalled = None.
Proof.
  split; [|split].
  - eexists. split.
    + vm_compute. reflexivity.
    + reflexivity.
  - reflexivity.
  - intros [] Ha; try discriminate Ha; reflexivity.
Qed.

(** ** The further properties on sample data *)

Lemma colliding_sentinel_truncates_sample :
  shown Sample.stall_trace = seqZ 0 Sample.colliding_LIMIT
  ∧ popped Sample.stall_trace = seqZ 0 (Sample.colliding_LIMIT + 1)
  ∧ ∀ status, main_at Sample.stalled ≠ MExit status.
Proof.
  destruct (colliding_sentinel_truncates Configured.BUFFER_SIZE
              Sample.colliding_LIMIT Configured.COUNT Sample.env_ok
              Sample.stall_trace Sample.stalled) as (_ & Hdone & Hnever).
  - reflexivity.
  - unfold Sample.colliding_LIMIT, Configured.COUNT. lia.
  - apply run_boot with (sched := Sample.stall_sched). reflexivity.
  - destruct Hdone as [Hs Hg]; [reflexivity|].
    destruct Hnever as [_ Hm]; [vm_compute; discriminate|].
    split_goal; assumption.
Defined.

Lemma producer_output_sample :
  (∃ rest, emitted Sample.trace ++ rest = seqZ 0 Configured.COUNT)
  ∧ (∃ ahead, emitted Sample.trace = shown Sample.trace ++ ahead)
  ∧ emitted Sample.final_trace = seqZ 0 Configured.COUNT.
Proof.
  destruct (producer_output Configured.BUFFER_SIZE Configured.LIMIT
              Configured.COUNT Sample.env_ok Sample.trace Sample.state)
    as (H1 & _ & H3 & _).
  - reflexivity.
  - apply run_boot with (sched := Sample.sched). reflexivity.
  - destruct (producer_output Configured.BUFFER_SIZE Configured.LIMIT
                Configured.COUNT Sample.env_ok Sample.final_trace
                Sample.final_state) as (_ & H2 & _).
    + reflexivity.
    + apply run_boot with (sched := Sample.full_sched). reflexivity.
    + split_goal; [exact H1|exact H3|apply H2; reflexivity].
Defined.

Lemma main_lifecycle_sample :
  prod_at Sample.final_state = PDone ∧ cons_at Sample.final_state = CDone
  ∧ popped Sample.final_trace = pushed Sample.final_trace
  ∧ read (buf Sample.final_state) = write (buf Sample.final_state).
Proof.
  destruct (main_lifecycle Configured.BUFFER_SIZE Configured.LIMIT
              Configured.COUNT Sample.env_ok Sample.final_trace
              Sample.final_state) as (_ & _ & H & _).
  - reflexivity.
  - apply run_boot with (sched := Sample.full_sched). reflexivity.
  - destruct H as (Hp & Hc & Hempty).
    + right. exists 0. reflexivity.
    + destruct Hempty as (Heq & _ & Hrw); [left; reflexivity|].
      split_goal; assumption.
Defined.

Lemma spurious_wakeup_harmless_sample :
  buf (set_cons CGet Sample.asleep) = buf Sample.asleep
  ∧ Consumer Configured.BUFFER_SIZE Configured.LIMIT
      (set_cons CGet Sample.asleep)
    = Some (EvEmpty, Sample.asleep).
Proof.
  destruct (spurious_wakeup_harmless Configured.BUFFER_SIZE Configured.LIMIT
              Configured.COUNT Sample.env_ok Sample.asleep_trace
              Sample.asleep) as [_ H].
  - reflexivity.
  - reflexivity.
  - apply run_boot with (sched := Sample.asleep_sched). reflexivity.
  - destruct (H EvWake (set_cons CGet Sample.asleep))
      as (Hb & _ & _ & _ & Hc).
    + reflexivity.
    + split; assumption.
Defined.

Lemma capacity_one_delivers_nothing_sample :
  pushed Sample.one_slot_trace = []
  ∧ full 1 (buf Sample.one_slot) = true
  ∧ ¬ finished Sample.one_slot
  ∧ ∀ status, main_at Sample.one_slot ≠ MExit status.
Proof.
  destruct (capacity_one_delivers_nothing 1 Configured.LIMIT
              Configured.COUNT Sample.env_ok Sample.one_slot_trace
              Sample.one_slot)
    as (Hf & Hp & _ & _ & _ & Hn & _ & _ & _ & Hm).
  - reflexivity.
  - apply run_boot with (sched := Sample.one_slot_sched). reflexivity.
  - split_goal; assumption.
Defined.

Lemma buffer_is_queue_sample :
  contents Configured.BUFFER_SIZE Sample.half_buffer
  = 6 :: contents Configured.BUFFER_SIZE (Build_prodcons [5; 6; 7; 0] 2 3)
  ∧ contents Configured.BUFFER_SIZE (Build_prodcons [5; 6; 7; 8] 1 0)
    = contents Configured.BUFFER_SIZE Sample.half_buffer ++ [8].
Proof.
  destruct (buffer_is_queue Configured.BUFFER_SIZE Sample.env_ok
              Sample.half_buffer) as (_ & _ & HS & _ & HG & _).
  - vm_compute. intuition discriminate.
  - split.
    + apply (HG 6 (Build_prodcons [5; 6; 7; 0] 2 3)). reflexivity.
    + destruct (HS 8) as [_ H].
      apply (H (Build_prodcons [5; 6; 7; 8] 1 0)). reflexivity.
Defined.

Lemma stores_then_gets_sample :
  (∃ b1 b2,
     Store_all Configured.BUFFER_SIZE Sample.empty_buffer [1; 2; 3]
     = Some b1
     ∧ contents Configured.BUFFER_SIZE b1 = [1; 2; 3]
     ∧ Get_n Configured.BUFFER_SIZE b1 3 = Some ([1; 2; 3], b2)
     ∧ empty b2 = true)
  ∧ Store_all Configured.BUFFER_SIZE Sample.empty_buffer [1; 2; 3; 4]
    = None.
Proof.
  split.
  - destruct (stores_then_gets Configured.BUFFER_SIZE Sample.empty_buffer
                [1; 2; 3]) as [H _].
    + vm_compute. intuition discriminate.
    + reflexivity.
    + apply H. vm_compute. discriminate.
  - destruct (stores_then_gets Configured.BUFFER_SIZE Sample.empty_buffer
                [1; 2; 3; 4]) as [_ H].
    + vm_compute. intuition discriminate.
    + reflexivity.
    + apply H. reflexivity.
Defined.

Lemma roomy_buffer_never_blocks_sample :
  full 13 (buf Sample.roomy) = false.
Proof.
  destruct (roomy_buffer_never_blocks 13 Configured.LIMIT Configured.COUNT
              Sample.env_ok Sample.roomy_trace Sample.roomy) as [_ H].
  - vm_compute. discriminate.
  - apply run_boot with (sched := Sample.roomy_sched). reflexivity.
  - apply (H (InLoop 1)). reflexivity.
Defined.

Lemma no_items_no_output_sample :
  emitted Sample.idle_trace = [] ∧ shown Sample.idle_trace = []
  ∧ pushed Sample.idle_trace = [Configured.LIMIT].
Proof.
  destruct (no_items_no_output Configured.BUFFER_SIZE Configured.LIMIT 0
              Sample.env_ok Sample.idle_trace Sample.idle_state)
    as (He & Hs & _ & Hp).
  - reflexivity.
  - reflexivity.
  - apply run_boot with (sched := Sample.idle_sched). reflexivity.
  - split_goal; [exact He|exact Hs|apply Hp; reflexivity].
Defined.
